(** * Exhaustive vertex enumeration for linear programs

    A shallow embedding of the functions [get_vertices] and
    [LP_exhaustive_search] of
    [1 - LP_exhaustive_vs_simplex/LP_exhaustive_vs_simplex_fixed.qmd].

    Conventions of the embedding.
    - A numpy array bound to a Python name lives in a store ([heap]) and is
      handled through its location; the in-place update
      [x[np.abs(x) < 1e-14] = 0] is a write to that store.  Anonymous
      temporaries ([np.eye(n)], [A @ x], [b + 1e-10], [-c], masks) are
      values.
    - Python exceptions are the [Raise] outcome of a state-and-error monad;
      the store survives an exception.
    - A [float64] is a rational ([Q]).  [np.linalg.solve] is LAPACK's LU
      factorisation with partial pivoting and its two triangular solves,
      every operation rounded to the nearest binary64 number ([fl]); it
      raises [LinAlgError] (numpy's "Singular matrix") when a pivot is
      exactly zero.  The comparisons, the tolerances [1e-14] and [1e-10],
      the products [A @ x] and [np.dot] of the feasibility test and of the
      objective are the ones of the source, evaluated exactly.  Overflow
      and underflow are left out. *)

From Stdlib Require Import QArith Qabs Qminmax Qround Qpower Lqa Lia List Sorted
  Factorial ArithRing FinFun.
From stdpp Require Import base list.
Import ListNotations.
Open Scope Q_scope.

(** ** Exceptions, outcomes and the store *)

Inductive exn : Set :=
| LinAlgError   (* numpy.linalg.LinAlgError *)
| IndexError
| ValueError
| TypeError.    (* an operand that is not an array of the expected rank *)

Inductive result (A : Type) : Type :=
| Ok (a : A)
| Raise (e : exn).
Arguments Ok {A} a.
Arguments Raise {A} e.

(** A one-dimensional array, or a two-dimensional one with its number of
    columns (an [m x 0] array still has [m] rows). *)
Inductive ndarray : Type :=
| Vec (v : list Q)
| Mat (ncols : nat) (rows : list (list Q)).

(** Locations are positions in the store; a new array takes the next one. *)
Abbreviation loc := nat (only parsing).
Abbreviation heap := (list ndarray) (only parsing).

Definition M (A : Type) : Type := heap -> result A * heap.

Definition ret {A} (a : A) : M A := fun h => (Ok a, h).
Definition raise {A} (e : exn) : M A := fun h => (Raise e, h).
Definition bind {A B} (c : M A) (k : A -> M B) : M B :=
  fun h => match c h with
           | (Ok a, h') => k a h'
           | (Raise e, h') => (Raise e, h')
           end.
Definition lift {A} (r : result A) : M A := fun h => (r, h).

Notation "x <- c1 ;; c2" := (bind c1 (fun x => c2))
  (at level 100, c1 at next level, right associativity).
Notation "c1 ;;; c2" := (bind c1 (fun _ => c2))
  (at level 100, right associativity).

(** [try: body except: handler] with a bare [except]: every exception of
    the body is caught. *)
Definition try_except {A} (body handler : M A) : M A :=
  fun h => match body h with
           | (Ok a, h') => (Ok a, h')
           | (Raise _, h') => handler h'
           end.

(** [for a in l: s = body(s, a)] *)
Fixpoint for_each {A S} (body : S -> A -> M S) (l : list A) (s : S) : M S :=
  match l with
  | [] => ret s
  | a :: l' => s' <- body s a ;; for_each body l' s'
  end.

(** A new array object. *)
Definition alloc (a : ndarray) : M loc := fun h => (Ok (length h), h ++ [a]).

Definition load_vec (l : loc) : M (list Q) :=
  fun h => match h !! l with
           | Some (Vec v) => (Ok v, h)
           | _ => (Raise TypeError, h)
           end.

(** The number of columns and the rows of a stored two-dimensional array. *)
Definition load_mat (l : loc) : M (nat * list (list Q)) :=
  fun h => match h !! l with
           | Some (Mat n rows) => (Ok (n, rows), h)
           | _ => (Raise TypeError, h)
           end.

(** In-place write to an existing array object. *)
Definition store (l : loc) (a : ndarray) : M unit :=
  fun h => (Ok tt, <[l:=a]> h).

(** ** numpy and itertools *)

Definition Qltb (x y : Q) : bool := negb (Qle_bool y x).

(** [np.shape(a)] *)
Definition np_shape (a : loc) : M (list nat) :=
  fun h => match h !! a with
           | Some (Vec v) => (Ok [length v], h)
           | Some (Mat n rows) => (Ok [length rows; n], h)
           | None => (Raise TypeError, h)
           end.

(** [t[i]] on a tuple *)
Definition tuple_get (t : list nat) (i : nat) : M nat :=
  match t !! i with
  | Some k => ret k
  | None => raise IndexError
  end.

(** [np.eye(n)] and [np.zeros(n)] *)
Definition np_eye (n : nat) : list (list Q) :=
  map (fun i => map (fun j => if Nat.eqb i j then 1 else 0) (seq 0 n)) (seq 0 n).
Definition np_zeros (n : nat) : list Q := repeat 0 n.

(** [np.vstack((A, I))] for a stored [A] and an [n]-column block [I] *)
Definition np_vstack (A : loc) (n : nat) (I : list (list Q)) : M loc :=
  a <- load_mat A ;;
  if Nat.eqb (fst a) n then alloc (Mat (fst a) (snd a ++ I))
  else raise ValueError.

(** [np.hstack((b, z))] for a stored one-dimensional [b] *)
Definition np_hstack (b : loc) (z : list Q) : M loc :=
  fun h => match h !! b with
           | Some (Vec v) => alloc (Vec (v ++ z)) h
           | Some (Mat _ _) => (Raise ValueError, h)
           | None => (Raise TypeError, h)
           end.

(** [a[idx]] with a list of indices: a copy, [IndexError] out of range *)
Fixpoint take {A} (l : list A) (idx : list nat) : result (list A) :=
  match idx with
  | [] => Ok []
  | i :: idx' =>
      match l !! i with
      | None => Raise IndexError
      | Some a => match take l idx' with
                  | Ok r => Ok (a :: r)
                  | Raise e => Raise e
                  end
      end
  end.

(** [A_stacked[list(row_combo), :]] *)
Definition take_rows (a : loc) (idx : list nat) : M loc :=
  src <- load_mat a ;;
  sel <- lift (take (snd src) idx) ;;
  alloc (Mat (fst src) sel).

(** [b_stacked[list(row_combo)]] *)
Definition take_items (a : loc) (idx : list nat) : M loc :=
  v <- load_vec a ;;
  sel <- lift (take v idx) ;;
  alloc (Vec sel).

(** [itertools.combinations(l, k)], in its lexicographic order *)
Fixpoint combinations {A} (l : list A) (k : nat) : list (list A) :=
  match l with
  | [] => match k with O => [[]] | S _ => [] end
  | x :: t =>
      match k with
      | O => [[]]
      | S k' => map (cons x) (combinations t k') ++ combinations t k
      end
  end.

(** [np.dot(u, v)] of two one-dimensional arrays *)
Definition dot (u v : list Q) : Q :=
  fold_right Qplus 0 (zip_with Qmult u v).

Definition np_dot (u v : list Q) : result Q :=
  if Nat.eqb (length u) (length v) then Ok (dot u v) else Raise ValueError.

(** [A @ x] *)
Definition matmul (n : nat) (rows : list (list Q)) (x : list Q) : result (list Q) :=
  if Nat.eqb n (length x) then Ok (map (fun r => dot r x) rows)
  else Raise ValueError.

(** [u <= v] with numpy's broadcasting of one-dimensional operands *)
Definition np_le (u v : list Q) : result (list bool) :=
  if Nat.eqb (length u) (length v) then Ok (zip_with Qle_bool u v)
  else match u, v with
       | [a], _ => Ok (map (fun b => Qle_bool a b) v)
       | _, [b] => Ok (map (fun a => Qle_bool a b) u)
       | _, _ => Raise ValueError
       end.

(** [np.all] *)
Definition np_all (bs : list bool) : bool := forallb (fun b => b) bs.

(** [np.min] of a Python list of scalars *)
Definition np_min (l : list Q) : result Q :=
  match l with
  | [] => Raise ValueError
  | q :: l' => Ok (fold_left Qmin l' q)
  end.

(** [np.rint]: the nearest integer, a half going to the even one. *)
Definition rint (q : Q) : Q :=
  let f := Qfloor q in
  match q - inject_Z f ?= 1 # 2 with
  | Lt => inject_Z f
  | Gt => inject_Z (f + 1)
  | Eq => if Z.even f then inject_Z f else inject_Z (f + 1)
  end.

(** *** binary64 arithmetic

    [ilog2 q] is the exponent of [q]: [2 ^ ilog2 q <= |q| < 2 ^ (ilog2 q + 1)]
    for [q <> 0].  [fl q] is the binary64 number nearest to [q], a tie going
    to the even significand: [q] is scaled to a significand of 53 bits,
    rounded to an integer and scaled back.  The exponent is not bounded. *)

Definition ilog2 (q : Q) : Z :=
  let k := (Z.log2 (Z.abs (Qnum q)) - Z.log2 (Zpos (Qden q)))%Z in
  if Qle_bool (2 ^ k) (Qabs q) then k else (k - 1)%Z.

Definition fl (q : Q) : Q :=
  let r := Qred q in
  if Qeq_bool r 0 then 0
  else let e := (ilog2 r - 52)%Z in Qred (rint (r / 2 ^ e) * 2 ^ e).

(** *** [np.linalg.solve]

    numpy hands the system to LAPACK's [gesv]: an LU factorisation with
    partial pivoting, then a forward and a backward substitution, all in
    binary64.  The elimination below works on the rows
    [(coefficients, right-hand side)], one column per step:
    - the pivot of a column is its first entry largest in magnitude, and
      its row is exchanged with the first row;
    - a multiplier is the product of an entry of the column with the
      rounded reciprocal of the pivot;
    - the update of a coefficient rounds the product and then the
      difference;
    - the updates of the right-hand side, in the forward and in the
      backward substitution, are fused (rounded once), and an unknown is
      the rounded quotient by its pivot;
    - a pivot that is exactly zero ends in [LinAlgError]. *)

Definition row : Type := list Q * Q.

Definition lead (r : row) : Q := hd 0 (fst r).

(** The position and the row of the first leading entry largest in
    magnitude. *)
Fixpoint find_pivot (rs : list row) : option (nat * row) :=
  match rs with
  | [] => None
  | r :: rs' =>
      match find_pivot rs' with
      | Some (i, p) =>
          if Qltb (Qabs (lead r)) (Qabs (lead p)) then Some (S i, p)
          else Some (O, r)
      | None => Some (O, r)
      end
  end.

(** Cancel the leading unknown of [r] with the pivot row [p], whose
    rounded reciprocal is [recip], and drop its column. *)
Definition eliminate (recip : Q) (p r : row) : row :=
  let l := fl (lead r * recip) in
  (zip_with (fun a u => fl (a - fl (l * u))) (tl (fst r)) (tl (fst p)),
   fl (snd r - l * snd p)).

(** The unknown of the pivot row [p], once the unknowns [xs] after it are
    known: they are taken off the right-hand side from the last one
    backwards. *)
Definition back_substitute (p : row) (xs : list Q) : Q :=
  fl (fold_right (fun ux acc => fl (acc - snd ux * fst ux)) (snd p)
                 (zip (tl (fst p)) xs)
      / lead p).

(** [n] unknowns; [None] when a pivot is exactly zero. *)
Fixpoint gesv (n : nat) (rs : list row) : option (list Q) :=
  match n with
  | O => Some []
  | S k =>
      match find_pivot rs with
      | None => None
      | Some (i, p) =>
          if Qeq_bool (lead p) 0 then None
          else
            let rest := tl (<[i := hd p rs]> rs) in
            match gesv k (map (eliminate (fl (1 / lead p)) p) rest) with
            | None => None
            | Some xs => Some (back_substitute p xs :: xs)
            end
      end
  end.

Definition linalg_solve (a : list (list Q)) (b : list Q) : result (list Q) :=
  let n := length a in
  if negb (forallb (fun r => Nat.eqb (length r) n) a) then Raise LinAlgError
  else if negb (Nat.eqb (length b) n) then Raise ValueError
  else match gesv n (zip a b) with
       | None => Raise LinAlgError
       | Some xs => Ok xs
       end.

(** ** The source functions *)

(** [x[(np.abs(x) < 1e-14)] = 0], on the contents of [x] *)
Definition snap_to_zero (xv : list Q) : list Q :=
  map (fun xi => if Qltb (Qabs xi) 1e-14 then 0 else xi) xv.

(** The body of the [try] block of [get_vertices]. *)
Definition solve_and_check (A b : loc) (n : nat)
    (A_constraints b_constraints : loc) (feasible_vertices : list loc)
  : M (list loc) :=
  Ac <- load_mat A_constraints ;;
  bc <- load_vec b_constraints ;;
  (* x = np.linalg.solve(A_constraints[:, :n], b_constraints) *)
  sol <- lift (linalg_solve (map (firstn n) (snd Ac)) bc) ;;
  x <- alloc (Vec sol) ;;
  (* x[(np.abs(x) < 1e-14)] = 0 *)
  xv <- load_vec x ;;
  store x (Vec (snap_to_zero xv)) ;;;
  (* if np.all(x >= 0) and np.all((A @ x) <= (b + 1e-10)) *)
  xv <- load_vec x ;;
  if np_all (map (fun xi => Qle_bool 0 xi) xv) then
    Av <- load_mat A ;;
    bv <- load_vec b ;;
    Ax <- lift (matmul (fst Av) (snd Av) xv) ;;
    cmp <- lift (np_le Ax (map (fun bi => bi + 1e-10) bv)) ;;
    if np_all cmp then ret (feasible_vertices ++ [x])
    else ret feasible_vertices
  else ret feasible_vertices.

(** One iteration of [for row_combo in row_index_combinations]. *)
Definition loop_body (A b : loc) (n : nat) (A_stacked b_stacked : loc)
    (feasible_vertices : list loc) (row_combo : list nat) : M (list loc) :=
  A_constraints <- take_rows A_stacked row_combo ;;
  b_constraints <- take_items b_stacked row_combo ;;
  try_except
    (solve_and_check A b n A_constraints b_constraints feasible_vertices)
    (ret feasible_vertices).

Definition row_index_combinations (m n : nat) : list (list nat) :=
  combinations (seq 0 (m + n)) n.

Definition get_vertices (A b : loc) : M (list loc) :=
  shp <- np_shape A ;;
  m <- tuple_get shp 0 ;;
  shp <- np_shape A ;;
  n <- tuple_get shp 1 ;;
  A_stacked <- np_vstack A n (np_eye n) ;;
  b_stacked <- np_hstack b (np_zeros n) ;;
  for_each (loop_body A b n A_stacked b_stacked)
           (row_index_combinations m n) [].

Definition LP_exhaustive_search (A b c : loc) : M Q :=
  feasible_vertices <- get_vertices A b ;;
  objective_values <-
    for_each (fun objective_values vertex =>
                cv <- load_vec c ;;
                xv <- load_vec vertex ;;
                vertex_obj_val <- lift (np_dot (map Qopp cv) xv) ;;
                ret (objective_values ++ [vertex_obj_val]))
             feasible_vertices [] ;;
  lift (np_min objective_values).

(** ** Functional reading of the enumeration

    What [get_vertices] and [LP_exhaustive_search] compute, as functions of
    the contents [n], [rows] of [A], [bv] of [b] and [cv] of [c]. *)

Section Reading.
Variables (n : nat) (rows : list (list Q)) (bv : list Q).

Definition A_stacked_rows : list (list Q) := rows ++ np_eye n.
Definition b_stacked_items : list Q := bv ++ np_zeros n.

(** The test [np.all(x >= 0) and np.all((A @ x) <= (b + 1e-10))]; an
    exception of the second operand counts as a failed test, for it ends
    in the [except] branch. *)
Definition passes (xv : list Q) : bool :=
  np_all (map (fun xi => Qle_bool 0 xi) xv) &&
  match matmul n rows xv with
  | Ok Ax =>
      match np_le Ax (map (fun bi => bi + 1e-10) bv) with
      | Ok cmp => np_all cmp
      | Raise _ => false
      end
  | Raise _ => false
  end.

(** The vertices contributed by one selected system: one or none. *)
Definition candidate (Ac : list (list Q)) (bc : list Q) : list (list Q) :=
  match linalg_solve (map (firstn n) Ac) bc with
  | Ok sol => if passes (snap_to_zero sol) then [snap_to_zero sol] else []
  | Raise _ => []
  end.

Fixpoint enumerate (combos : list (list nat)) : result (list (list Q)) :=
  match combos with
  | [] => Ok []
  | c :: cs =>
      match take A_stacked_rows c with
      | Raise e => Raise e
      | Ok Ac =>
          match take b_stacked_items c with
          | Raise e => Raise e
          | Ok bc =>
              match enumerate cs with
              | Raise e => Raise e
              | Ok vs => Ok (candidate Ac bc ++ vs)
              end
          end
      end
  end.

Definition vertices_of : result (list (list Q)) :=
  enumerate (row_index_combinations (length rows) n).

Definition objective (cv : list Q) (vs : list (list Q)) : result (list Q) :=
  fold_right (fun x acc =>
                match np_dot (map Qopp cv) x, acc with
                | Ok d, Ok ds => Ok (d :: ds)
                | Raise e, _ => Raise e
                | _, Raise e => Raise e
                end) (Ok []) vs.
End Reading.

Definition optimal_value (n : nat) (rows : list (list Q)) (bv cv : list Q)
  : result Q :=
  match vertices_of n rows bv with
  | Raise e => Raise e
  | Ok vs => match objective cv vs with
             | Raise e => Raise e
             | Ok ds => np_min ds
             end
  end.

(** ** Predicates used in the statements *)

(** A store in which the four arrays read by the loop are in place. *)
Definition loop_store (A b n : nat) (rows : list (list Q)) (bv : list Q)
    (A_stacked b_stacked : nat) (h : list ndarray) : Prop :=
  h !! A = Some (Mat n rows) /\ h !! b = Some (Vec bv) /\
  h !! A_stacked = Some (Mat n (A_stacked_rows n rows)) /\
  h !! b_stacked = Some (Vec (b_stacked_items n bv)).

(** The vertices listed are stored where the list says. *)
Definition holds (h : list ndarray) (ls : list nat) (vs : list (list Q))
  : Prop :=
  Forall2 (fun l x => h !! l = Some (Vec x)) ls vs.

(** The two-dimensional arrays among those allocated: in the loop of
    [get_vertices] these are the [A_constraints], one per iteration. *)
Definition is_mat (a : ndarray) : bool :=
  match a with Mat _ _ => true | Vec _ => false end.

(** [a] is the array [A_stacked[list(c), :]]. *)
Definition selection_of (n : nat) (rows : list (list Q)) (c : list nat)
    (a : ndarray) : Prop :=
  exists Ac, take (A_stacked_rows n rows) c = Ok Ac /\ a = Mat n Ac.

(** A computation that leaves every existing array as it is. *)
Definition grows {A} (c : M A) : Prop :=
  forall h, h `prefix_of` snd (c h).

(** The binomial coefficient, by Pascal's rule. *)
Fixpoint choose (n k : nat) : nat :=
  match n, k with
  | _, O => 1
  | O, S _ => 0
  | S n', S k' => choose n' k' + choose n' (S k')
  end.

(** A system without a unique intersection point: a non-zero vector is
    orthogonal to every row. *)
Definition singular (a : list (list Q)) : Prop :=
  exists y, length y = length a /\ Exists (fun yi => ~ yi == 0) y /\
            Forall (fun r => dot r y == 0) a.

(** A store holding [A], [b] and [c] with [len(b) != m] or [len(c) != n]. *)
Definition malformed (h : list ndarray) (A b c : nat) : Prop :=
  exists n rows bv cv,
    h !! A = Some (Mat n rows) /\ h !! b = Some (Vec bv) /\
    h !! c = Some (Vec cv) /\
    (length bv <> length rows \/ length cv <> n).

(** Failing before anything is built: an exception, the store untouched. *)
Definition fails_fast (h : list ndarray) (A b c : nat) : Prop :=
  exists e, LP_exhaustive_search A b c h = (Raise e, h).

(** ** Stores used in the examples *)

(** The two scenarios of the specification. *)
Definition scenario2 : list ndarray :=
  [Mat 2 [[1; 1]; [1; 0]]; Vec [4; 2]; Vec [3; 2]].
Definition scenario1 : list ndarray := [Mat 1 [[1]]; Vec [5]; Vec [1]].

(** An infeasible program: [0 * x <= -1]. *)
Definition infeasible_lp : list ndarray := [Mat 1 [[0]]; Vec [-1]; Vec [1]].

(** Two rows against three bounds: the comparison of [A @ x] with
    [b + 1e-10] cannot be broadcast. *)
Definition mismatched_lp : list ndarray :=
  [Mat 1 [[1]; [1]]; Vec [1; 2; 3]; Vec [1]].

(** One row against two bounds: [A @ x] is broadcast over [b + 1e-10]. *)
Definition broadcast_lp : list ndarray := [Mat 1 [[1]]; Vec [5; 7]; Vec [1]].

(** Two rows against one bound, and two objective coefficients for one
    unknown. *)
Definition short_b_lp : list ndarray := [Mat 1 [[1]; [1]]; Vec [1]; Vec [1]].
Definition long_c_lp : list ndarray := [Mat 1 [[1]]; Vec [5]; Vec [1; 2]].

(** Two proportional rows, [35 x + 5 y <= 35] being five times
    [7 x + y <= 7]. *)
Definition proportional_lp : list ndarray :=
  [Mat 2 [[7; 1]; [35; 5]]; Vec [7; 35]; Vec [1; 1]].

(** ** The problem generator

    [generate_random_LPP] draws from Python's [random] and from
    [np.random]; both generators are parameters here, and their state
    [rng] is passed along and returned. *)

Section Generator.
Variable rng : Type.
(** [random.randint(a, b)], and one draw of [np.random.rand]. *)
Variable randint : nat -> nat -> rng -> nat * rng.
Variable random_sample : rng -> Q * rng.

(** [np.random.rand(k)] *)
Fixpoint rand_vec (k : nat) (g : rng) : list Q * rng :=
  match k with
  | O => ([], g)
  | S k' =>
      let (u, g1) := random_sample g in
      let (us, g2) := rand_vec k' g1 in
      (u :: us, g2)
  end.

(** [np.random.rand(m, n)], filled row by row *)
Fixpoint rand_mat (m n : nat) (g : rng) : list (list Q) * rng :=
  match m with
  | O => ([], g)
  | S m' =>
      let (r, g1) := rand_vec n g in
      let (rs, g2) := rand_mat m' n g1 in
      (r :: rs, g2)
  end.

Definition generate_random_LPP (g : rng) : M (nat * nat * nat * rng) :=
  (* Number of constraints in the A matrix *)
  let (m, g) := randint 1 12 g in
  (* Number of decision variables *)
  let (n, g) := randint 1 12 g in
  let (uA, g) := rand_mat m n g in
  A <- alloc (Mat n (map (map (fun u => rint (u * 100))) uA)) ;;
  let (ub, g) := rand_vec m g in
  b <- alloc (Vec (map (fun u => rint (u * 100)) ub)) ;;
  let (uc, g) := rand_vec n g in
  c <- alloc (Vec (map (fun u => rint (u * 100)) uc)) ;;
  ret (A, b, c, g).
End Generator.

(** An integer between 0 and 100, as a float. *)
Definition int_0_100 (q : Q) : Prop :=
  exists z, q = inject_Z z /\ (0 <= z <= 100)%Z.

(** A source of draws for the examples: a counter, read modulo the size of
    the range. *)
Definition counter_randint (a b : nat) (g : nat) : nat * nat :=
  ((a + g mod (b - a + 1))%nat, S g).
Definition counter_sample (g : nat) : Q * nat :=
  (Z.of_nat (g mod 8) # 8, S g).

(** ** Points used in the statements *)


(** * Properties *)

(** ** The solver and the scenarios of the specification *)

Example linalg_solve_2x2 :
  linalg_solve [[1; 1]; [1; 0]] [4; 2] = Ok [2; 2].
Proof. reflexivity. Qed.

Example linalg_solve_3x3 :
  linalg_solve [[0; 2; 1]; [1; 1; 1]; [2; 0; 3 # 2]] [7; 6; 13 # 2]
  = Ok [1; 2; 3].
Proof. reflexivity. Qed.

Example linalg_solve_parallel :
  linalg_solve [[1; 2]; [2; 4]] [1; 1] = Raise LinAlgError.
Proof. reflexivity. Qed.

(** Rounding: [1/3] is not a binary64 number, the constants [1e-14] and
    [1e-10] of the source are not the powers of ten, and [49 * (1/49)]
    is not [1]. *)
Example fl_third : fl (1 / 3) = 6004799503160661 # 18014398509481984.
Proof. vm_compute. reflexivity. Qed.

Example fl_tolerances :
  fl 1e-14 < 1e-14 /\ 1e-10 < fl 1e-10 /\ fl (49 * fl (1 / 49)) < 1.
Proof. repeat split. Qed.

(** Two proportional rows: the multiplier [7 * fl (1/35)] is not [1/5], the
    elimination is left with the pivot [2^-53] and a point is returned. *)
Example linalg_solve_proportional :
  linalg_solve [[7; 1]; [35; 5]] [7; 35] = Ok [1 # 4; 21 # 4].
Proof. vm_compute. reflexivity. Qed.

(** Two rows that are not proportional, [fl (1/3)] not being [1/3]: the
    elimination is left with the pivot [0]. *)
Example linalg_solve_lost_pivot :
  linalg_solve [[3; 1]; [1; fl (1 / 3)]] [1; 1] = Raise LinAlgError.
Proof. vm_compute. reflexivity. Qed.

Example combinations_4_2 :
  combinations (seq 0 4) 2
  = [[0; 1]; [0; 2]; [0; 3]; [1; 2]; [1; 3]; [2; 3]]%nat.
Proof. reflexivity. Qed.

(** The vertices of the first scenario, in the order found. *)
Example scenario2_vertices :
  let (r, h) := get_vertices 0%nat 1%nat scenario2 in
  match r with
  | Ok ls => map (fun l => h !! l) ls
  | Raise _ => []
  end = [Some (Vec [2; 2]); Some (Vec [0; 4]); Some (Vec [2; 0]);
         Some (Vec [0; 0])].
Proof. vm_compute. reflexivity. Qed.

Example scenario2_value :
  fst (LP_exhaustive_search 0%nat 1%nat 2%nat scenario2) = Ok (-10 # 1).
Proof. vm_compute. reflexivity. Qed.

Example scenario1_value :
  fst (LP_exhaustive_search 0%nat 1%nat 2%nat scenario1) = Ok (-5 # 1).
Proof. vm_compute. reflexivity. Qed.

(** ** Running the monadic code *)

Lemma bind_run {A B} (c : M A) (k : A -> M B) h a h' :
  c h = (Ok a, h') -> bind c k h = k a h'.
Proof. intros E. unfold bind. now rewrite E. Qed.

Lemma bind_raise {A B} (c : M A) (k : A -> M B) h e h' :
  c h = (Raise e, h') -> bind c k h = (Raise e, h').
Proof. intros E. unfold bind. now rewrite E. Qed.

Lemma load_vec_run h l v : h !! l = Some (Vec v) -> load_vec l h = (Ok v, h).
Proof. intros E. unfold load_vec. now rewrite E. Qed.

Lemma load_mat_run h l k rs :
  h !! l = Some (Mat k rs) -> load_mat l h = (Ok (k, rs), h).
Proof. intros E. unfold load_mat. now rewrite E. Qed.

Lemma lookup_grow (h t : heap) l a : h !! l = Some a -> (h ++ t) !! l = Some a.
Proof. apply lookup_app_l_Some. Qed.

Lemma lookup_fresh (h : heap) a t : (h ++ a :: t) !! length h = Some a.
Proof. apply list_lookup_middle. reflexivity. Qed.

Lemma store_fresh (h : heap) a a' :
  <[length h := a']> (h ++ [a]) = h ++ [a'].
Proof.
  rewrite insert_app_r_alt by lia.
  now rewrite Nat.sub_diag.
Qed.

Lemma take_rows_run h a k rs idx :
  h !! a = Some (Mat k rs) ->
  take_rows a idx h =
    match take rs idx with
    | Ok sel => (Ok (length h), h ++ [Mat k sel])
    | Raise e => (Raise e, h)
    end.
Proof.
  intros E. unfold take_rows.
  rewrite (bind_run _ _ _ _ _ (load_mat_run _ _ _ _ E)). simpl.
  unfold bind, lift. now destruct (take rs idx).
Qed.

Lemma take_items_run h a v idx :
  h !! a = Some (Vec v) ->
  take_items a idx h =
    match take v idx with
    | Ok sel => (Ok (length h), h ++ [Vec sel])
    | Raise e => (Raise e, h)
    end.
Proof.
  intros E. unfold take_items.
  rewrite (bind_run _ _ _ _ _ (load_vec_run _ _ _ E)).
  unfold bind, lift. now destruct (take v idx).
Qed.

Section Run.
Variables (A b : loc) (n : nat) (rows : list (list Q)) (bv : list Q).

(** The block [x = solve(...); x[...] = 0; if ...: append] on a store
    holding the inputs and the selected system. *)
Lemma solve_and_check_run h Al bl k Ac bc acc :
  h !! A = Some (Mat n rows) -> h !! b = Some (Vec bv) ->
  h !! Al = Some (Mat k Ac) -> h !! bl = Some (Vec bc) ->
  solve_and_check A b n Al bl acc h =
    match linalg_solve (map (firstn n) Ac) bc with
    | Raise e => (Raise e, h)
    | Ok sol =>
        let xv := snap_to_zero sol in
        (if np_all (map (fun xi => Qle_bool 0 xi) xv) then
           match matmul n rows xv with
           | Raise e => Raise e
           | Ok Ax =>
               match np_le Ax (map (fun bi => bi + 1e-10) bv) with
               | Raise e => Raise e
               | Ok cmp => Ok (if np_all cmp then acc ++ [length h] else acc)
               end
           end
         else Ok acc, h ++ [Vec xv])
    end.
Proof.
  intros HA Hb HAl Hbl. unfold solve_and_check.
  rewrite (bind_run _ _ _ _ _ (load_mat_run _ _ _ _ HAl)).
  rewrite (bind_run _ _ _ _ _ (load_vec_run _ _ _ Hbl)). simpl.
  unfold bind at 1, lift at 1.
  destruct (linalg_solve (map (firstn n) Ac) bc) as [sol|e]; [|reflexivity].
  unfold bind at 1, alloc at 1.
  unfold bind at 1, load_vec at 1. rewrite lookup_fresh.
  unfold bind at 1, store at 1. rewrite store_fresh.
  unfold bind at 1, load_vec at 1. rewrite lookup_fresh.
  destruct (np_all (map (fun xi => Qle_bool 0 xi) (snap_to_zero sol)));
    [|reflexivity].
  rewrite (bind_run _ _ _ _ _ (load_mat_run _ _ _ _ (lookup_grow _ _ _ _ HA))).
  rewrite (bind_run _ _ _ _ _ (load_vec_run _ _ _ (lookup_grow _ _ _ _ Hb))).
  simpl. unfold bind at 1, lift at 1.
  destruct (matmul n rows (snap_to_zero sol)) as [Ax|e]; [|reflexivity].
  unfold bind at 1, lift at 1.
  destruct (np_le Ax _) as [cmp|e]; [|reflexivity].
  now destruct (np_all cmp).
Qed.

Variables (A_stacked b_stacked : loc).

Lemma loop_store_grow h t : loop_store A b n rows bv A_stacked b_stacked h ->
  loop_store A b n rows bv A_stacked b_stacked (h ++ t).
Proof.
  intros (HA & Hb & HAs & Hbs).
  repeat split; now apply lookup_grow.
Qed.

Lemma loop_body_run h acc c :
  loop_store A b n rows bv A_stacked b_stacked h ->
  loop_body A b n A_stacked b_stacked acc c h =
    match take (A_stacked_rows n rows) c with
    | Raise e => (Raise e, h)
    | Ok Ac =>
        match take (b_stacked_items n bv) c with
        | Raise e => (Raise e, h ++ [Mat n Ac])
        | Ok bc =>
            match linalg_solve (map (firstn n) Ac) bc with
            | Raise _ => (Ok acc, h ++ [Mat n Ac; Vec bc])
            | Ok sol =>
                (Ok (if passes n rows bv (snap_to_zero sol)
                     then acc ++ [S (S (length h))] else acc),
                 h ++ [Mat n Ac; Vec bc; Vec (snap_to_zero sol)])
            end
        end
    end.
Proof.
  intros (HA & Hb & HAs & Hbs). unfold loop_body.
  unfold bind at 1. rewrite (take_rows_run _ _ _ _ _ HAs).
  destruct (take (A_stacked_rows n rows) c) as [Ac|e]; [|reflexivity].
  unfold bind at 1.
  rewrite (take_items_run _ _ _ _ (lookup_grow _ [Mat n Ac] _ _ Hbs)).
  destruct (take (b_stacked_items n bv) c) as [bc|e]; [|reflexivity].
  unfold try_except.
  rewrite (solve_and_check_run ((h ++ [Mat n Ac]) ++ [Vec bc])
             (length h) (length (h ++ [Mat n Ac])) n Ac bc acc).
  - destruct (linalg_solve (map (firstn n) Ac) bc) as [sol|e];
      cbv zeta; rewrite <- !app_assoc; simpl; [|reflexivity].
    unfold passes.
    replace (length (h ++ [Mat n Ac; Vec bc])) with (S (S (length h)))
      by (rewrite length_app; simpl; lia).
    destruct (np_all (map (fun xi => Qle_bool 0 xi) (snap_to_zero sol)));
      [|reflexivity].
    simpl.
    destruct (matmul n rows (snap_to_zero sol)) as [Ax|e]; [|reflexivity].
    destruct (np_le Ax _) as [cmp|e]; [|reflexivity].
    now destruct (np_all cmp).
  - now do 2 apply lookup_grow.
  - now do 2 apply lookup_grow.
  - rewrite <- app_assoc. apply lookup_fresh.
  - apply lookup_fresh.
Qed.

Lemma holds_grow h t ls vs : holds h ls vs -> holds (h ++ t) ls vs.
Proof.
  unfold holds. intros H. eapply Forall2_impl; [exact H|].
  intros l x. apply lookup_grow.
Qed.

Lemma for_each_loop_body_spec combos : forall h acc vs0,
  loop_store A b n rows bv A_stacked b_stacked h -> holds h acc vs0 ->
  exists t,
    snd (for_each (loop_body A b n A_stacked b_stacked) combos acc h)
      = h ++ t /\
    match enumerate n rows bv combos with
    | Ok vs =>
        exists ls,
          fst (for_each (loop_body A b n A_stacked b_stacked) combos acc h)
            = Ok ls /\ holds (h ++ t) ls (vs0 ++ vs)
    | Raise e =>
        fst (for_each (loop_body A b n A_stacked b_stacked) combos acc h)
          = Raise e
    end.
Proof.
  induction combos as [|c cs IH]; intros h acc vs0 Hst Hacc.
  - exists []. simpl. rewrite !app_nil_r. split; [reflexivity|].
    exists acc. now split.
  - simpl. unfold bind. rewrite (loop_body_run h acc c Hst).
    destruct (take (A_stacked_rows n rows) c) as [Ac|e].
    2:{ exists []. now rewrite app_nil_r. }
    destruct (take (b_stacked_items n bv) c) as [bc|e].
    2:{ now exists [Mat n Ac]. }
    unfold candidate.
    destruct (linalg_solve (map (firstn n) Ac) bc) as [sol|e].
    + set (h1 := h ++ [Mat n Ac; Vec bc; Vec (snap_to_zero sol)]).
      assert (Hst1 : loop_store A b n rows bv A_stacked b_stacked h1)
        by now apply loop_store_grow.
      destruct (passes n rows bv (snap_to_zero sol)).
      * destruct (IH h1 (acc ++ [S (S (length h))])
                    (vs0 ++ [snap_to_zero sol]) Hst1) as (t & Ht & Hr).
        { apply Forall2_app; [now apply holds_grow|].
          constructor; [|constructor]. unfold h1.
          rewrite (lookup_app_r h) by lia.
          now replace (S (S (length h)) - length h)%nat with 2%nat by lia. }
        exists ([Mat n Ac; Vec bc; Vec (snap_to_zero sol)] ++ t).
        rewrite app_assoc. split; [exact Ht|].
        destruct (enumerate n rows bv cs) as [vs|e]; [|exact Hr].
        destruct Hr as (ls & Hls & Hh). exists ls. split; [exact Hls|].
        simpl. now rewrite <- app_assoc in Hh.
      * destruct (IH h1 acc vs0 Hst1) as (t & Ht & Hr).
        { now apply holds_grow. }
        exists ([Mat n Ac; Vec bc; Vec (snap_to_zero sol)] ++ t).
        rewrite app_assoc. split; [exact Ht|].
        destruct (enumerate n rows bv cs) as [vs|e']; [|exact Hr].
        exact Hr.
    + set (h1 := h ++ [Mat n Ac; Vec bc]).
      assert (Hst1 : loop_store A b n rows bv A_stacked b_stacked h1)
        by now apply loop_store_grow.
      destruct (IH h1 acc vs0 Hst1) as (t & Ht & Hr).
      { now apply holds_grow. }
      exists ([Mat n Ac; Vec bc] ++ t).
      rewrite app_assoc. split; [exact Ht|].
      destruct (enumerate n rows bv cs) as [vs|e']; [|exact Hr].
      exact Hr.
Qed.
End Run.

(** [get_vertices] up to its loop: the two stacked arrays are allocated. *)
Lemma get_vertices_run h A b n rows bv :
  h !! A = Some (Mat n rows) -> h !! b = Some (Vec bv) ->
  get_vertices A b h =
    for_each (loop_body A b n (length h) (S (length h)))
             (row_index_combinations (length rows) n) []
             (h ++ [Mat n (A_stacked_rows n rows);
                    Vec (b_stacked_items n bv)]).
Proof.
  intros HA Hb. unfold get_vertices.
  assert (Hshape : np_shape A h = (Ok [length rows; n], h))
    by (unfold np_shape; now rewrite HA).
  rewrite (bind_run _ _ _ _ _ Hshape).
  rewrite (bind_run _ _ h (length rows) h) by reflexivity.
  rewrite (bind_run _ _ _ _ _ Hshape).
  rewrite (bind_run _ _ h n h) by reflexivity.
  rewrite (bind_run _ _ h (length h) (h ++ [Mat n (A_stacked_rows n rows)])).
  2:{ unfold np_vstack.
      rewrite (bind_run _ _ _ _ _ (load_mat_run _ _ _ _ HA)). simpl.
      now rewrite Nat.eqb_refl. }
  rewrite (bind_run _ _ _ (S (length h))
             ((h ++ [Mat n (A_stacked_rows n rows)])
                ++ [Vec (b_stacked_items n bv)])).
  2:{ unfold np_hstack. rewrite (lookup_grow _ _ _ _ Hb).
      unfold alloc. rewrite length_app. simpl.
      now replace (length h + 1)%nat with (S (length h)) by lia. }
  now rewrite <- app_assoc.
Qed.

(** [get_vertices] on a store where [A] is an [m x n] array and [b] a
    one-dimensional array: the store only grows, and the outcome is the one
    of [vertices_of], the returned locations holding its vertices. *)
Lemma get_vertices_spec h A b n rows bv :
  h !! A = Some (Mat n rows) -> h !! b = Some (Vec bv) ->
  exists t,
    snd (get_vertices A b h) = h ++ t /\
    match vertices_of n rows bv with
    | Ok vs =>
        exists ls, fst (get_vertices A b h) = Ok ls /\ holds (h ++ t) ls vs
    | Raise e => fst (get_vertices A b h) = Raise e
    end.
Proof.
  intros HA Hb. rewrite (get_vertices_run h A b n rows bv HA Hb).
  set (h2 := h ++ [Mat n (A_stacked_rows n rows); Vec (b_stacked_items n bv)]).
  assert (Hst : loop_store A b n rows bv (length h) (S (length h)) h2).
  { unfold h2. repeat split.
    - now apply lookup_grow.
    - now apply lookup_grow.
    - apply lookup_fresh.
    - rewrite (lookup_app_r h) by lia.
      now replace (S (length h) - length h)%nat with 1%nat by lia. }
  destruct (for_each_loop_body_spec A b n rows bv _ _
              (row_index_combinations (length rows) n) h2 [] [] Hst)
    as (t & Ht & Hr); [constructor|].
  exists ([Mat n (A_stacked_rows n rows); Vec (b_stacked_items n bv)] ++ t).
  rewrite app_assoc. split; [exact Ht|exact Hr].
Qed.

(** The loop of [LP_exhaustive_search] over the vertices found. *)
Lemma objective_loop_run h c cv : forall ls vs acc,
  h !! c = Some (Vec cv) -> holds h ls vs ->
  for_each (fun objective_values vertex =>
              cv <- load_vec c ;;
              xv <- load_vec vertex ;;
              vertex_obj_val <- lift (np_dot (map Qopp cv) xv) ;;
              ret (objective_values ++ [vertex_obj_val])) ls acc h
  = (match objective cv vs with
     | Ok ds => Ok (acc ++ ds)
     | Raise e => Raise e
     end, h).
Proof.
  intros ls vs acc Hc Hh. revert acc.
  induction Hh as [|l x ls vs Hl Hh IH]; intros acc.
  - simpl. now rewrite app_nil_r.
  - simpl. unfold bind at 1.
    rewrite (bind_run _ _ _ _ _ (load_vec_run _ _ _ Hc)).
    rewrite (bind_run _ _ _ _ _ (load_vec_run _ _ _ Hl)).
    unfold bind at 1, lift at 1.
    destruct (np_dot (map Qopp cv) x) as [d|e]; [|reflexivity].
    unfold ret at 1. rewrite IH.
    destruct (objective cv vs) as [ds|e]; [|reflexivity].
    now rewrite <- app_assoc.
Qed.

(** [LP_exhaustive_search] on a store holding a linear program: the store
    only grows and the outcome is [optimal_value] of the contents. *)
Lemma LP_exhaustive_search_spec h A b c n rows bv cv :
  h !! A = Some (Mat n rows) -> h !! b = Some (Vec bv) ->
  h !! c = Some (Vec cv) ->
  exists t,
    LP_exhaustive_search A b c h = (optimal_value n rows bv cv, h ++ t).
Proof.
  intros HA Hb Hc.
  destruct (get_vertices_spec h A b n rows bv HA Hb) as (t & Ht & Hr).
  exists t. unfold LP_exhaustive_search, optimal_value. unfold bind at 1.
  destruct (get_vertices A b h) as [r h1]. simpl in Ht, Hr. subst h1.
  destruct (vertices_of n rows bv) as [vs|e].
  - destruct Hr as (ls & -> & Hh).
    unfold bind at 1.
    rewrite (objective_loop_run _ c cv ls vs [] (lookup_grow _ t _ _ Hc) Hh).
    now destruct (objective cv vs) as [ds|e].
  - now rewrite Hr.
Qed.

(** ** Frame: a computation that leaves every existing array as it is *)

Lemma grows_ret {A} (a : A) : grows (ret a).
Proof. intros h. reflexivity. Qed.

Lemma grows_raise {A} e : grows (@raise A e).
Proof. intros h. reflexivity. Qed.

Lemma grows_lift {A} (r : result A) : grows (lift r).
Proof. intros h. reflexivity. Qed.

Lemma grows_load_vec l : grows (load_vec l).
Proof. intros h. unfold load_vec. destruct (h !! l) as [[]|]; reflexivity. Qed.

Lemma grows_load_mat l : grows (load_mat l).
Proof. intros h. unfold load_mat. destruct (h !! l) as [[]|]; reflexivity. Qed.

Lemma grows_np_shape l : grows (np_shape l).
Proof. intros h. unfold np_shape. destruct (h !! l) as [[]|]; reflexivity. Qed.

Lemma grows_tuple_get t i : grows (tuple_get t i).
Proof. unfold tuple_get. destruct (t !! i); [apply grows_ret|apply grows_raise]. Qed.

Lemma grows_alloc a : grows (alloc a).
Proof. intros h. now apply prefix_app_r. Qed.

Lemma grows_bind {A B} (c : M A) (k : A -> M B) :
  grows c -> (forall a, grows (k a)) -> grows (bind c k).
Proof.
  intros Hc Hk h. unfold bind. specialize (Hc h).
  destruct (c h) as [[a|e] h1]; simpl in *; [|exact Hc].
  etransitivity; [exact Hc|apply Hk].
Qed.

Lemma grows_try_except {A} (body handler : M A) :
  grows body -> grows handler -> grows (try_except body handler).
Proof.
  intros Hb Hh h. unfold try_except. specialize (Hb h).
  destruct (body h) as [[a|e] h1]; simpl in *; [exact Hb|].
  etransitivity; [exact Hb|apply Hh].
Qed.

Lemma grows_for_each {A S} (body : S -> A -> M S) l :
  (forall s a, grows (body s a)) -> forall s, grows (for_each body l s).
Proof.
  intros Hb. induction l as [|a l IH]; intros s; simpl.
  - apply grows_ret.
  - apply grows_bind; [apply Hb|exact IH].
Qed.

Create HintDb grows.
#[local] Hint Resolve grows_ret grows_raise grows_lift grows_load_vec
  grows_load_mat grows_np_shape grows_tuple_get grows_alloc : grows.

Ltac grows_step :=
  repeat (first [ apply grows_bind; [|intros ?]
                | match goal with
                  | |- grows (if ?c then _ else _) => destruct c
                  end
                | solve [auto with grows] ]).

Lemma grows_np_vstack A n I : grows (np_vstack A n I).
Proof. unfold np_vstack. grows_step. Qed.

Lemma grows_np_hstack b z : grows (np_hstack b z).
Proof.
  intros h. unfold np_hstack.
  destruct (h !! b) as [[]|]; try reflexivity. apply grows_alloc.
Qed.

Lemma grows_take_rows a idx : grows (take_rows a idx).
Proof. unfold take_rows. grows_step. Qed.

Lemma grows_take_items a idx : grows (take_items a idx).
Proof. unfold take_items. grows_step. Qed.

(** The only write of the program hits the array allocated just before. *)
Lemma grows_solve_and_check A b n Al bl acc :
  grows (solve_and_check A b n Al bl acc).
Proof.
  unfold solve_and_check.
  apply grows_bind; [auto with grows|intros Ac].
  apply grows_bind; [auto with grows|intros bc].
  apply grows_bind; [auto with grows|intros sol].
  intros h. unfold bind at 1, alloc at 1.
  unfold bind at 1, load_vec at 1. rewrite lookup_fresh.
  unfold bind at 1, store at 1. rewrite store_fresh.
  transitivity (h ++ [Vec (snap_to_zero sol)]); [now apply prefix_app_r|].
  generalize (h ++ [Vec (snap_to_zero sol)]). fold (grows
    (xv <- load_vec (length h);;
     (if np_all (map (fun xi => Qle_bool 0 xi) xv)
      then Av <- load_mat A;;
           bv <- load_vec b;;
           Ax <- lift (matmul (fst Av) (snd Av) xv);;
           cmp <- lift (np_le Ax (map (fun bi => bi + 1e-10) bv));;
           (if np_all cmp then ret (acc ++ [length h]) else ret acc)
      else ret acc))).
  grows_step.
Qed.

Lemma grows_loop_body A b n As bs acc c :
  grows (loop_body A b n As bs acc c).
Proof.
  unfold loop_body.
  apply grows_bind; [apply grows_take_rows|intros Al].
  apply grows_bind; [apply grows_take_items|intros bl].
  apply grows_try_except; [apply grows_solve_and_check|apply grows_ret].
Qed.

Lemma grows_get_vertices A b : grows (get_vertices A b).
Proof.
  unfold get_vertices.
  do 4 (apply grows_bind; [auto with grows|intros ?]).
  apply grows_bind; [apply grows_np_vstack|intros As].
  apply grows_bind; [apply grows_np_hstack|intros bs].
  apply grows_for_each. intros. apply grows_loop_body.
Qed.

Lemma grows_LP_exhaustive_search A b c : grows (LP_exhaustive_search A b c).
Proof.
  unfold LP_exhaustive_search.
  apply grows_bind; [apply grows_get_vertices|intros ls].
  apply grows_bind; [|auto with grows].
  apply grows_for_each. intros s a. grows_step.
Qed.

Lemma grows_lookup {A} (c : M A) h l a :
  grows c -> h !! l = Some a -> snd (c h) !! l = Some a.
Proof.
  intros Hc Hl. destruct (Hc h) as [t ->]. now apply lookup_grow.
Qed.

(** ** Facts on the functional reading *)

Lemma np_all_true bs : np_all bs = true <-> Forall (fun b => b = true) bs.
Proof.
  unfold np_all. rewrite forallb_forall, List.Forall_forall. reflexivity.
Qed.

Lemma take_Raise {A} (l : list A) idx e : take l idx = Raise e -> e = IndexError.
Proof.
  induction idx as [|i idx IH]; simpl; [discriminate|].
  destruct (l !! i); [|congruence].
  destruct (take l idx); [discriminate|]. intros [= <-]. now apply IH.
Qed.

Lemma take_Ok {A} (l : list A) idx :
  Forall (fun i => (i < length l)%nat) idx -> exists r, take l idx = Ok r.
Proof.
  induction 1 as [|i idx Hi _ [r IH]]; simpl; [eauto|].
  destruct (lookup_lt_is_Some_2 l i Hi) as [a ->]. rewrite IH. eauto.
Qed.

Lemma take_out_of_range {A} (l : list A) idx i :
  In i idx -> (length l <= i)%nat -> take l idx = Raise IndexError.
Proof.
  induction idx as [|j idx IH]; simpl; [tauto|].
  intros [->|Hin] Hi.
  - now rewrite (lookup_ge_None_2 l i Hi).
  - destruct (l !! j); [|reflexivity]. now rewrite (IH Hin Hi).
Qed.

Section ReadingFacts.
Variables (n : nat) (rows : list (list Q)) (bv : list Q).


Lemma passes_length x : passes n rows bv x = true -> length x = n.
Proof.
  unfold passes, matmul. intros [_ H]%andb_prop.
  destruct (Nat.eqb_spec n (length x)); [congruence|discriminate].
Qed.



Lemma candidate_In Ac bc x :
  In x (candidate n rows bv Ac bc) -> passes n rows bv x = true.
Proof.
  unfold candidate. destruct (linalg_solve _ _) as [sol|]; [|intros []].
  destruct (passes n rows bv (snap_to_zero sol)) eqn:E; [|intros []].
  now intros [<-|[]].
Qed.

Lemma enumerate_In combos : forall vs x,
  enumerate n rows bv combos = Ok vs -> In x vs ->
  passes n rows bv x = true.
Proof.
  induction combos as [|c cs IH]; simpl; intros vs x.
  - now intros [= <-] [].
  - destruct (take (A_stacked_rows n rows) c) as [Ac|]; [|discriminate].
    destruct (take (b_stacked_items n bv) c) as [bc|]; [|discriminate].
    destruct (enumerate n rows bv cs) as [vs'|]; [|discriminate].
    intros [= <-] [H|H]%in_app_or.
    + eapply candidate_In, H.
    + now apply (IH vs').
Qed.

(** The enumeration can only fail on an index out of range. *)
Lemma enumerate_Raise combos e :
  enumerate n rows bv combos = Raise e -> e = IndexError.
Proof.
  induction combos as [|c cs IH]; simpl; [discriminate|].
  destruct (take (A_stacked_rows n rows) c) as [Ac|e1] eqn:E1.
  2:{ intros [= <-]. eapply take_Raise, E1. }
  destruct (take (b_stacked_items n bv) c) as [bc|e2] eqn:E2.
  2:{ intros [= <-]. eapply take_Raise, E2. }
  destruct (enumerate n rows bv cs); [discriminate|].
  intros [= <-]. now apply IH.
Qed.

Lemma enumerate_Ok combos :
  Forall (Forall (fun i => (i < length rows + n)%nat)) combos ->
  (length rows <= length bv)%nat ->
  exists vs, enumerate n rows bv combos = Ok vs.
Proof.
  intros Hc Hlen. induction Hc as [|c cs Hc _ [vs IH]]; simpl; [eauto|].
  destruct (take_Ok (A_stacked_rows n rows) c) as [Ac ->].
  { unfold A_stacked_rows, np_eye.
    rewrite length_app, length_map, length_seq. exact Hc. }
  destruct (take_Ok (b_stacked_items n bv) c) as [bc ->].
  { unfold b_stacked_items, np_zeros. rewrite length_app, repeat_length.
    eapply List.Forall_impl; [|exact Hc]. simpl. intros; lia. }
  rewrite IH. eauto.
Qed.

Lemma enumerate_fails combos c i :
  Forall (Forall (fun i => (i < length rows + n)%nat)) combos ->
  In c combos -> In i c -> (length bv + n <= i)%nat ->
  enumerate n rows bv combos = Raise IndexError.
Proof.
  intros Hc Hin Hi Hge. induction Hc as [|c' cs Hc' _ IH]; [destruct Hin|].
  simpl. destruct (take_Ok (A_stacked_rows n rows) c') as [Ac ->].
  { unfold A_stacked_rows, np_eye.
    rewrite length_app, length_map, length_seq. exact Hc'. }
  destruct (take (b_stacked_items n bv) c') as [bc|e] eqn:E.
  2:{ now rewrite (take_Raise _ _ _ E). }
  destruct Hin as [->|Hin].
  - rewrite (take_out_of_range _ c i Hi) in E; [discriminate|].
    unfold b_stacked_items, np_zeros. now rewrite length_app, repeat_length.
  - now rewrite (IH Hin).
Qed.
End ReadingFacts.

Lemma holds_In_l h ls vs l :
  holds h ls vs -> In l ls -> exists x, In x vs /\ h !! l = Some (Vec x).
Proof.
  induction 1 as [|l' x ls vs Hl _ IH]; intros Hin; [destruct Hin|].
  destruct Hin as [->|Hin].
  - exists x. split; [now left|exact Hl].
  - destruct (IH Hin) as (y & Hy & E). exists y. split; [now right|exact E].
Qed.

Lemma holds_In_r h ls vs x :
  holds h ls vs -> In x vs -> exists l, In l ls /\ h !! l = Some (Vec x).
Proof.
  induction 1 as [|l x' ls vs Hl _ IH]; intros Hin; [destruct Hin|].
  destruct Hin as [->|Hin].
  - exists l. split; [now left|exact Hl].
  - destruct (IH Hin) as (l' & Hl' & E). exists l'. split; [now right|exact E].
Qed.

(** ** The combinations enumerated *)

Lemma choose_fact : forall s n k, (n + k = s)%nat ->
  (choose (n + k) k * (fact n * fact k) = fact (n + k))%nat.
Proof.
  induction s as [s IH] using lt_wf_ind. intros n k Hs.
  destruct k as [|k].
  - rewrite Nat.add_0_r. destruct n; simpl; lia.
  - destruct n as [|n].
    + simpl (0 + S k)%nat.
      assert (H := IH k ltac:(lia) 0%nat k eq_refl).
      simpl (0 + k)%nat in H. simpl fact in *.
      assert (Hz : choose k (S k) = 0%nat).
      { clear. assert (G : forall a b, (a < b)%nat -> choose a b = 0%nat).
        { induction a as [|a IHa]; intros [|b] Hab; try lia; simpl; auto.
          rewrite !IHa by lia. reflexivity. }
        apply G. lia. }
      simpl choose. rewrite Hz. nia.
    + assert (H1 := IH (S n + k)%nat ltac:(lia) (S n) k eq_refl).
      assert (H2 := IH (n + S k)%nat ltac:(lia) n (S k) eq_refl).
      replace (S n + k)%nat with (n + S k)%nat in H1 by lia.
      replace (S n + S k)%nat with (S (n + S k)) by lia.
      change (choose (S (n + S k)) (S k))
        with (choose (n + S k) k + choose (n + S k) (S k))%nat.
      change (fact (S (n + S k))) with (S (n + S k) * fact (n + S k))%nat.
      change (fact (S n)) with (S n * fact n)%nat in *.
      change (fact (S k)) with (S k * fact k)%nat in *.
      generalize dependent (choose (n + S k) k).
      generalize dependent (choose (n + S k) (S k)).
      generalize (fact (n + S k)), (fact n), (fact k).
      intros F fn fk p2 H2 p1 H1.
      transitivity (p1 * (S n * fn * fk) * S k + p2 * (fn * (S k * fk)) * S n)%nat;
        [ring|].
      rewrite H1, H2. ring.
Qed.

Lemma combinations_length {A} (l : list A) : forall k,
  length (combinations l k) = choose (length l) k.
Proof.
  induction l as [|x t IH]; intros [|k]; simpl; try reflexivity.
  now rewrite length_app, length_map, !IH.
Qed.

Lemma combinations_incl {A} (l : list A) : forall k c,
  In c (combinations l k) -> length c = k /\ incl c l.
Proof.
  induction l as [|x t IH]; intros [|k] c; simpl.
  - intros [<-|[]]. split; [reflexivity|apply incl_nil_l].
  - intros [].
  - intros [<-|[]]. split; [reflexivity|apply incl_nil_l].
  - intros [H|H]%in_app_or.
    + apply in_map_iff in H as (c' & <- & H). apply IH in H as [<- Hi].
      split; [reflexivity|]. intros y [<-|Hy]; [now left|right; now apply Hi].
    + apply IH in H as [<- Hi]. split; [reflexivity|].
      now apply incl_tl.
Qed.

Lemma combinations_sorted (l : list nat) : StronglySorted lt l ->
  forall k c, In c (combinations l k) -> StronglySorted lt c.
Proof.
  induction 1 as [|x t Ht IH Hx]; intros [|k] c; simpl;
    try (intros [<-|[]]; constructor); try (intros []).
  intros [H|H]%in_app_or; [|now apply (IH (S k))].
  apply in_map_iff in H as (c' & <- & H).
  constructor; [now apply (IH k)|].
  apply combinations_incl in H as [_ Hi].
  rewrite List.Forall_forall in *. intros y Hy. apply Hx, Hi, Hy.
Qed.

Lemma combinations_complete (l : list nat) : StronglySorted lt l ->
  forall c, StronglySorted lt c -> incl c l ->
  In c (combinations l (length c)).
Proof.
  induction 1 as [|x t Ht IH Hx]; intros c Hc Hi.
  - destruct c as [|y c]; [now left|]. destruct (Hi y); now left.
  - destruct c as [|y c]; [now left|]. simpl.
    apply StronglySorted_inv in Hc as [Hc Hy].
    rewrite List.Forall_forall in Hx, Hy.
    apply in_or_app. destruct (Hi y ltac:(now left)) as [<-|Hyt].
    + left. apply in_map, IH; [exact Hc|].
      intros z Hz. destruct (Hi z ltac:(now right)) as [<-|H]; [|exact H].
      specialize (Hy _ Hz). lia.
    + right. apply (IH (y :: c)).
      * constructor; [exact Hc|]. now apply List.Forall_forall.
      * intros z [<-|Hz]; [exact Hyt|].
        destruct (Hi z ltac:(now right)) as [<-|H]; [|exact H].
        specialize (Hy _ Hz). specialize (Hx _ Hyt). lia.
Qed.

Lemma combinations_NoDup (l : list nat) : StronglySorted lt l ->
  forall k, List.NoDup (combinations l k).
Proof.
  induction 1 as [|x t Ht IH Hx]; intros [|k]; simpl;
    try (constructor; [intros []|constructor]); try constructor.
  apply List.NoDup_app.
  - apply Injective_map_NoDup; [|apply IH]. now intros a b [= ->].
  - apply IH.
  - intros c H1 H2.
    apply in_map_iff in H1 as (c' & <- & _).
    apply combinations_incl in H2 as [_ Hi].
    rewrite List.Forall_forall in Hx. specialize (Hx x (Hi x ltac:(now left))).
    lia.
Qed.

Lemma seq_sorted : forall len a, StronglySorted lt (seq a len).
Proof.
  induction len as [|len IH]; intros a; simpl; constructor; [apply IH|].
  apply List.Forall_forall. intros y Hy%in_seq. lia.
Qed.

Lemma row_index_combinations_bound m n :
  Forall (Forall (fun i => (i < m + n)%nat)) (row_index_combinations m n).
Proof.
  apply List.Forall_forall. intros c Hc.
  apply combinations_incl in Hc as [_ Hi].
  apply List.Forall_forall. intros i Hin%Hi%in_seq. lia.
Qed.

(** The rows of the identity block form a combination. *)
Lemma last_rows_enumerated m n : In (seq m n) (row_index_combinations m n).
Proof.
  unfold row_index_combinations.
  assert (H := combinations_complete (seq 0 (m + n)) (seq_sorted _ _)
                 (seq m n) (seq_sorted _ _)).
  rewrite length_seq in H. apply H.
  intros i Hi%in_seq. apply in_seq. lia.
Qed.

(** ** [linalg_solve]: the size of its result, and two systems it decides *)

Lemma dot_cons a u c v : dot (a :: u) (c :: v) = a * c + dot u v.
Proof. reflexivity. Qed.

Lemma dot_zero_r u : forall y, Forall (fun yi => yi == 0) y -> dot u y == 0.
Proof.
  induction u as [|a u IH]; intros y Hy; [reflexivity|].
  destruct Hy as [|c y Hc Hy]; [reflexivity|].
  rewrite dot_cons, IH, Hc by exact Hy. ring.
Qed.

(** [fl] sees the value of its argument, not its representation. *)
Lemma fl_comp q q' : q == q' -> fl q = fl q'.
Proof. intros H. unfold fl. now rewrite (Qred_complete _ _ H). Qed.

Lemma fl_zero q : q == 0 -> fl q = 0.
Proof. intros H. now rewrite (fl_comp _ _ H). Qed.

(** *** [fl] is a rounding to nearest *)

Lemma pow2_pos z : 0 < 2 ^ z.
Proof. apply Qpower_0_lt. reflexivity. Qed.

Lemma pow2_plus x y : 2 ^ (x + y) == 2 ^ x * 2 ^ y.
Proof. apply Qpower_plus. discriminate. Qed.

Lemma pow2_inject z : (0 <= z)%Z -> 2 ^ z == inject_Z (2 ^ z).
Proof. intros Hz. now rewrite Zpower_Qpower. Qed.

Lemma Qabs_num q : Qabs q * inject_Z (Zpos (Qden q)) == inject_Z (Z.abs (Qnum q)).
Proof.
  destruct q as [n d]. unfold Qabs, Qeq, Qmult, inject_Z. simpl.
  rewrite Pos.mul_1_r. lia.
Qed.

(** [2 ^ ilog2 q <= |q| < 2 ^ (ilog2 q + 1)] *)
Lemma ilog2_spec q :
  ~ q == 0 -> 2 ^ ilog2 q <= Qabs q /\ Qabs q < 2 ^ (ilog2 q + 1).
Proof.
  intros Hq.
  set (a := Z.abs (Qnum q)). set (d := Zpos (Qden q)).
  assert (Ha : (0 < a)%Z).
  { unfold a. destruct q as [n dq]. unfold Qeq in Hq. simpl in *. lia. }
  assert (Hd : (0 < d)%Z) by (unfold d; lia).
  destruct (Z.log2_spec a Ha) as [Ha1 Ha2].
  destruct (Z.log2_spec d Hd) as [Hd1 Hd2].
  assert (Hla := Z.log2_nonneg a). assert (Hld := Z.log2_nonneg d).
  assert (Hnum := Qabs_num q). fold a d in Hnum.
  assert (Hdq : 0 < inject_Z d) by (unfold Qlt; simpl; lia).
  (* |q| < 2 ^ (k + 1) and 2 ^ (k - 1) < |q| *)
  assert (Hup : Qabs q < 2 ^ (Z.log2 a - Z.log2 d + 1)).
  { apply (Qmult_lt_r _ _ (inject_Z d) Hdq). rewrite Hnum.
    apply (Qlt_le_trans _ (2 ^ (Z.log2 a - Z.log2 d + 1) * 2 ^ Z.log2 d)).
    - rewrite <- pow2_plus.
      replace (Z.log2 a - Z.log2 d + 1 + Z.log2 d)%Z with (Z.succ (Z.log2 a))
        by lia.
      rewrite pow2_inject by lia. rewrite <- Zlt_Qlt. exact Ha2.
    - apply Qmult_le_l; [apply pow2_pos|].
      rewrite pow2_inject by lia. rewrite <- Zle_Qle. exact Hd1. }
  assert (Hlo : 2 ^ (Z.log2 a - Z.log2 d - 1) < Qabs q).
  { apply (Qmult_lt_r _ _ (inject_Z d) Hdq). rewrite Hnum.
    apply (Qlt_le_trans _ (2 ^ (Z.log2 a - Z.log2 d - 1)
                           * 2 ^ Z.succ (Z.log2 d))).
    - apply Qmult_lt_l; [apply pow2_pos|].
      rewrite pow2_inject by lia. rewrite <- Zlt_Qlt. exact Hd2.
    - rewrite <- pow2_plus.
      replace (Z.log2 a - Z.log2 d - 1 + Z.succ (Z.log2 d))%Z with (Z.log2 a)
        by lia.
      rewrite pow2_inject by lia. rewrite <- Zle_Qle. exact Ha1. }
  unfold ilog2. fold a d.
  destruct (Qle_bool (2 ^ (Z.log2 a - Z.log2 d)) (Qabs q)) eqn:E.
  - split; [now apply Qle_bool_iff|exact Hup].
  - split; [now apply Qlt_le_weak|].
    replace (Z.log2 a - Z.log2 d - 1 + 1)%Z with (Z.log2 a - Z.log2 d)%Z
      by lia.
    apply Qnot_le_lt. intros H. apply Qle_bool_iff in H. congruence.
Qed.

(** [np.rint] moves its argument by a half at most. *)
Lemma rint_error q : Qabs (rint q - q) <= 1 # 2.
Proof.
  unfold rint.
  assert (H1 := Qfloor_le q). assert (H2 := Qlt_floor q).
  rewrite inject_Z_plus in H2. rewrite inject_Z_plus.
  change (inject_Z 1) with 1 in *.
  set (f := inject_Z (Qfloor q)) in *.
  apply Qabs_Qle_condition.
  destruct (q - f ?= 1 # 2) eqn:E.
  - apply Qeq_alt in E. destruct (Z.even (Qfloor q)); lra.
  - apply Qlt_alt in E. lra.
  - apply Qgt_alt in E. lra.
Qed.

(** [fl] moves its argument by half a unit in the last of its 53 digits at
    most. *)
Lemma fl_error q : Qabs (fl q - q) <= 2 ^ (ilog2 (Qred q) - 53).
Proof.
  unfold fl.
  assert (Hr := Qred_correct q). set (r := Qred q) in *.
  destruct (Qeq_bool r 0) eqn:E.
  - apply Qeq_bool_iff in E.
    assert (Hq : 0 - q == 0) by (rewrite <- Hr, E; ring).
    rewrite Hq. apply Qlt_le_weak, pow2_pos.
  - rewrite Qred_correct, <- Hr.
    set (e := (ilog2 r - 52)%Z).
    assert (Hp := pow2_pos e).
    assert (Hhalf : 2 ^ (ilog2 r - 53) == (1 # 2) * 2 ^ e).
    { replace (ilog2 r - 53)%Z with (-1 + e)%Z by (unfold e; lia).
      rewrite pow2_plus. reflexivity. }
    rewrite Hhalf.
    assert (Hc : rint (r / 2 ^ e) * 2 ^ e - r
                 == (rint (r / 2 ^ e) - r / 2 ^ e) * 2 ^ e)
      by (field; intros H; rewrite H in Hp; discriminate).
    rewrite Hc, Qabs_Qmult, (Qabs_pos (2 ^ e)) by now apply Qlt_le_weak.
    apply Qmult_le_compat_r; [apply rint_error|now apply Qlt_le_weak].
Qed.

(** The relative error of [fl] is [2^-53] at most. *)
Lemma fl_relative_error q : Qabs (fl q - q) <= Qabs q * 2 ^ (-53).
Proof.
  destruct (Qeq_dec q 0) as [Hq|Hq].
  - rewrite (fl_zero q Hq), Hq. discriminate.
  - eapply Qle_trans; [apply fl_error|].
    assert (Hr := Qred_correct q).
    assert (Hq' : ~ Qred q == 0) by now rewrite Hr.
    destruct (ilog2_spec (Qred q) Hq') as [Hlo _].
    assert (Habs : Qabs (Qred q) == Qabs q) by now rewrite Hr.
    rewrite Habs in Hlo.
    replace (ilog2 (Qred q) - 53)%Z with (ilog2 (Qred q) + -53)%Z by lia.
    rewrite pow2_plus.
    apply Qmult_le_compat_r; [exact Hlo|apply Qlt_le_weak, pow2_pos].
Qed.

(** A result of [fl] has a significand of 53 bits. *)
Lemma fl_format q :
  exists m e, fl q == inject_Z m * 2 ^ e /\ (Z.abs m <= 2 ^ 53)%Z.
Proof.
  unfold fl.
  set (r := Qred q).
  destruct (Qeq_bool r 0) eqn:E.
  - exists 0%Z, 0%Z. split; [reflexivity|lia].
  - assert (Hnz : ~ r == 0).
    { intros H. apply Qeq_bool_iff in H. congruence. }
    set (e := (ilog2 r - 52)%Z).
    destruct (ilog2_spec r Hnz) as [_ Hup].
    assert (Hp := pow2_pos e).
    assert (Hx : Qabs (r / 2 ^ e) < 2 ^ 53).
    { unfold Qdiv. rewrite Qabs_Qmult.
      rewrite (Qabs_pos (/ 2 ^ e))
        by now apply Qlt_le_weak, Qinv_lt_0_compat.
      apply Qlt_shift_div_r; [exact Hp|].
      rewrite <- pow2_plus.
      now replace (53 + e)%Z with (ilog2 r + 1)%Z by (unfold e; lia). }
    generalize dependent (r / 2 ^ e). intros x Hx.
    assert (Hm : exists m, rint x = inject_Z m /\ (Z.abs m <= 2 ^ 53)%Z).
    { apply Qabs_Qlt_condition in Hx as [Hx1 Hx2].
      assert (H1 := Qfloor_le x). assert (H2 := Qlt_floor x).
      assert (Hf1 : inject_Z (- 2 ^ 53) < inject_Z (Qfloor x + 1)).
      { eapply Qlt_trans; [|exact H2].
        eapply Qle_lt_trans; [|exact Hx1]. discriminate. }
      assert (Hf2 : inject_Z (Qfloor x) < inject_Z (2 ^ 53)).
      { eapply Qle_lt_trans; [exact H1|].
        eapply Qlt_le_trans; [exact Hx2|]. discriminate. }
      rewrite <- Zlt_Qlt in Hf1, Hf2.
      unfold rint.
      destruct (x - inject_Z (Qfloor x) ?= 1 # 2);
        [destruct (Z.even (Qfloor x))| |]; eexists; split;
        try reflexivity; lia. }
    destruct Hm as (m & -> & Hm). exists m, e.
    split; [apply Qred_correct|exact Hm].
Qed.

(** *** The elimination *)

Lemma gesv_length : forall n rs xs, gesv n rs = Some xs -> length xs = n.
Proof.
  induction n as [|k IH]; simpl; intros rs xs.
  - now intros [= <-].
  - destruct (find_pivot rs) as [[i p]|]; [|discriminate].
    destruct (Qeq_bool (lead p) 0); [discriminate|].
    destruct (gesv k _) as [xs'|] eqn:E; [|discriminate].
    intros [= <-]. simpl. f_equal. eapply IH, E.
Qed.

(** On a square system with a right-hand side of its size. *)
Lemma linalg_solve_square a b :
  Forall (fun r => length r = length a) a -> length b = length a ->
  linalg_solve a b = match gesv (length a) (zip a b) with
                     | None => Raise LinAlgError
                     | Some xs => Ok xs
                     end.
Proof.
  intros Hsq Hb. unfold linalg_solve.
  assert (H1 : forallb (fun r => Nat.eqb (length r) (length a)) a = true).
  { apply forallb_forall. intros r Hr. apply Nat.eqb_eq.
    rewrite List.Forall_forall in Hsq. now apply Hsq. }
  now rewrite H1, Hb, Nat.eqb_refl.
Qed.

Lemma linalg_solve_length a b x : linalg_solve a b = Ok x -> length x = length a.
Proof.
  unfold linalg_solve.
  destruct (negb _); [discriminate|]. destruct (negb _); [discriminate|].
  destruct (gesv _ _) as [xs|] eqn:E; [|discriminate].
  intros [= <-]. eapply gesv_length, E.
Qed.

Lemma find_pivot_lookup : forall rs i p,
  find_pivot rs = Some (i, p) -> rs !! i = Some p.
Proof.
  induction rs as [|r rs IH]; simpl; intros i p; [discriminate|].
  destruct (find_pivot rs) as [[j q]|].
  - destruct (Qltb _ _); intros [= <- <-]; [now apply IH|reflexivity].
  - now intros [= <- <-].
Qed.


(** The first row is the pivot when no row below has a larger leading
    entry. *)
Lemma find_pivot_head r rs :
  Forall (fun r' => Qabs (lead r') <= Qabs (lead r)) rs ->
  find_pivot (r :: rs) = Some (O, r).
Proof.
  intros H. simpl. destruct (find_pivot rs) as [[j q]|] eqn:E; [|reflexivity].
  apply find_pivot_lookup in E.
  rewrite List.Forall_forall in H.
  assert (Hq : Qabs (lead q) <= Qabs (lead r)).
  { apply H, list_elem_of_In. eapply list_elem_of_lookup_2, E. }
  unfold Qltb. apply Qle_bool_iff in Hq. now rewrite Hq.
Qed.

(** *** The identity system *)

Lemma eye_S n :
  np_eye (S n) = (1 :: np_zeros n) :: map (cons 0) (np_eye n).
Proof.
  unfold np_eye, np_zeros. simpl. f_equal.
  - f_equal. rewrite <- (length_seq n 1) at 2.
    generalize (seq 1 n) (fun j => proj1 (in_seq n 1 j)).
    induction l as [|j l IH]; intros H; simpl; [reflexivity|].
    destruct j; [specialize (H 0%nat (or_introl eq_refl)); lia|].
    f_equal. apply IH. intros j' Hj'. apply H. now right.
  - rewrite <- seq_shift, !map_map. apply map_ext. intros i.
    f_equal. now rewrite map_map.
Qed.

Lemma eye_entries n :
  Forall (fun r => length r = n /\ Forall (fun a => a = 0 \/ a = 1) r)
         (np_eye n).
Proof.
  apply List.Forall_map, List.Forall_forall. intros i _.
  split; [now rewrite length_map, length_seq|].
  apply List.Forall_map, List.Forall_forall. intros j _.
  destruct (Nat.eqb i j); auto.
Qed.

Lemma eliminate_unit_row n u :
  length u = n -> Forall (fun a => a = 0 \/ a = 1) u ->
  eliminate (fl (1 / 1)) (1 :: np_zeros n, 0) (0 :: u, 0) = (u, 0).
Proof.
  intros Hn Hu. unfold eliminate, lead. cbn [fst snd tl hd].
  change (fl (0 * fl (1 / 1))) with 0.
  f_equal; try reflexivity. subst n. unfold np_zeros.
  induction Hu as [|a u Ha _ IH]; [reflexivity|].
  cbn [length repeat zip_with]. rewrite IH.
  destruct Ha as [->| ->]; reflexivity.
Qed.

Lemma eliminate_unit_rows n E : forall z,
  Forall (fun r => length r = n /\ Forall (fun a => a = 0 \/ a = 1) r) E ->
  Forall (fun zi => zi = 0) z ->
  map (eliminate (fl (1 / 1)) (1 :: np_zeros n, 0)) (zip (map (cons 0) E) z)
  = zip E z.
Proof.
  induction E as [|u E IH]; intros [|zi z] HE Hz; simpl; try reflexivity.
  apply Forall_cons_1 in HE as [[Hl Hu] HE'].
  apply Forall_cons_1 in Hz as [-> Hz'].
  now rewrite (IH z HE' Hz'), (eliminate_unit_row n u Hl Hu).
Qed.

Lemma back_substitute_zeros n k :
  back_substitute (1 :: np_zeros n, 0) (np_zeros k) = 0.
Proof.
  unfold back_substitute. simpl.
  assert (H : fold_right (fun ux acc => fl (acc - snd ux * fst ux)) 0
                         (zip (np_zeros n) (np_zeros k)) = 0).
  { unfold np_zeros. revert k. induction n as [|n IH]; intros [|k]; simpl;
      try reflexivity.
    change (zip_with pair (repeat 0 n) (repeat 0 k))
      with (zip (repeat 0 n) (repeat 0 k)).
    now rewrite IH. }
  unfold lead. simpl. rewrite H. reflexivity.
Qed.

(** The elimination of the identity system with a zero right-hand side
    meets the pivots [1] and returns the origin, exactly. *)
Lemma gesv_eye : forall n,
  gesv n (zip (np_eye n) (np_zeros n)) = Some (np_zeros n).
Proof.
  induction n as [|n IH]; [reflexivity|].
  rewrite eye_S. change (np_zeros (S n)) with (0 :: np_zeros n).
  change (zip ((1 :: np_zeros n) :: map (cons 0) (np_eye n)) (0 :: np_zeros n))
    with ((1 :: np_zeros n, 0) :: zip (map (cons 0) (np_eye n)) (np_zeros n)).
  cbn [gesv]. rewrite find_pivot_head.
  2:{ apply List.Forall_forall. intros [u z] Hin.
      apply list_elem_of_In, list_elem_of_lookup_1 in Hin as [j Hj].
      apply lookup_zip_with_Some in Hj as (u' & z' & [= -> ->] & Hu & _).
      apply list_lookup_fmap_Some in Hu as (u'' & -> & _).
      discriminate. }
  change (Qeq_bool (lead (1 :: np_zeros n, 0)) 0) with false. cbv iota.
  cbn [hd insert list_insert tl].
  change (lead (1 :: np_zeros n, 0)) with 1.
  rewrite eliminate_unit_rows.
  - rewrite IH. now rewrite back_substitute_zeros.
  - apply eye_entries.
  - apply List.Forall_forall. intros q Hq%repeat_spec. now subst.
Qed.

Lemma linalg_solve_eye n :
  linalg_solve (np_eye n) (np_zeros n) = Ok (np_zeros n).
Proof.
  assert (Hn : length (np_eye n) = n)
    by (unfold np_eye; now rewrite length_map, length_seq).
  rewrite linalg_solve_square.
  - now rewrite Hn, gesv_eye.
  - rewrite Hn. eapply List.Forall_impl; [|apply eye_entries]. now intros r [].
  - rewrite Hn. apply repeat_length.
Qed.

(** *** A system with a row of zeros *)






(** ** The minimum taken by [LP_exhaustive_search] *)

Lemma objective_Ok cv vs :
  Forall (fun x => length x = length cv) vs ->
  objective cv vs = Ok (map (dot (map Qopp cv)) vs).
Proof.
  induction 1 as [|x vs Hx _ IH]; simpl; [reflexivity|].
  unfold np_dot. rewrite length_map, Hx, Nat.eqb_refl. now rewrite IH.
Qed.

Lemma objective_mismatch cv x vs :
  length x <> length cv -> objective cv (x :: vs) = Raise ValueError.
Proof.
  intros H. simpl. unfold np_dot. rewrite length_map.
  destruct (Nat.eqb_spec (length cv) (length x)); [congruence|reflexivity].
Qed.

Lemma Qmin_cases x y : Qmin x y = x \/ Qmin x y = y.
Proof.
  unfold Qmin, GenericMinMax.gmin. destruct (x ?= y); auto.
Qed.

Lemma fold_left_Qmin ds : forall d,
  In (fold_left Qmin ds d) (d :: ds) /\
  Forall (fun e => fold_left Qmin ds d <= e) (d :: ds).
Proof.
  induction ds as [|e ds IH]; intros d; simpl.
  - split; [now left|]. constructor; [apply Qle_refl|constructor].
  - destruct (IH (Qmin d e)) as [Hin Hle]. split.
    + destruct Hin as [<-|Hin]; [|now right; right].
      destruct (Qmin_cases d e) as [->| ->]; [now left|right; now left].
    + apply Forall_cons_1 in Hle as [Hm Hle].
      constructor; [|constructor; [|exact Hle]].
      * eapply Qle_trans; [exact Hm|apply Q.le_min_l].
      * eapply Qle_trans; [exact Hm|apply Q.le_min_r].
Qed.

(** The outcome of [get_vertices] read back from the store. *)
Lemma get_vertices_Ok h A b n rows bv ls h1 :
  h !! A = Some (Mat n rows) -> h !! b = Some (Vec bv) ->
  get_vertices A b h = (Ok ls, h1) ->
  exists vs, vertices_of n rows bv = Ok vs /\ holds h1 ls vs /\
             exists t, h1 = h ++ t.
Proof.
  intros HA Hb E.
  destruct (get_vertices_spec h A b n rows bv HA Hb) as (t & Ht & Hr).
  rewrite E in Ht, Hr. simpl in Ht, Hr. subst h1.
  destruct (vertices_of n rows bv) as [vs|e]; [|discriminate].
  destruct Hr as (ls' & [= <-] & Hh). eauto.
Qed.

(** ** What the loop allocates *)

Lemma bind_snd_prefix {A B} (c : M A) (k : A -> M B) h :
  (forall a, grows (k a)) -> snd (c h) `prefix_of` snd (bind c k h).
Proof.
  intros Hk. unfold bind. destruct (c h) as [[a|e] h1]; simpl; [apply Hk|].
  reflexivity.
Qed.

(** With a row index to enumerate, the loop allocates before it ends. *)
Lemma get_vertices_allocates h A b n rows bv :
  h !! A = Some (Mat n rows) -> h !! b = Some (Vec bv) ->
  (length h + 3 <= length (snd (get_vertices A b h)))%nat.
Proof.
  intros HA Hb. rewrite (get_vertices_run h A b n rows bv HA Hb).
  set (h2 := h ++ [Mat n (A_stacked_rows n rows); Vec (b_stacked_items n bv)]).
  assert (Hst : loop_store A b n rows bv (length h) (S (length h)) h2).
  { unfold h2. repeat split.
    - now apply lookup_grow.
    - now apply lookup_grow.
    - apply lookup_fresh.
    - rewrite (lookup_app_r h) by lia.
      now replace (S (length h) - length h)%nat with 1%nat by lia. }
  assert (Hb2 := row_index_combinations_bound (length rows) n).
  assert (Hin := last_rows_enumerated (length rows) n).
  destruct (row_index_combinations (length rows) n) as [|c0 cs];
    [destruct Hin|].
  simpl for_each.
  assert (Hp := bind_snd_prefix
                  (loop_body A b n (length h) (S (length h)) [] c0)
                  (for_each (loop_body A b n (length h) (S (length h))) cs) h2
                  (grows_for_each _ cs
                     (fun s a => grows_loop_body A b n _ _ s a))).
  apply prefix_length in Hp.
  rewrite (loop_body_run A b n rows bv _ _ h2 [] c0 Hst) in Hp.
  destruct (take_Ok (A_stacked_rows n rows) c0) as [Ac HAc].
  { unfold A_stacked_rows, np_eye.
    rewrite length_app, length_map, length_seq. now inversion Hb2. }
  rewrite HAc in Hp.
  assert (Hh2 : length h2 = (length h + 2)%nat)
    by (unfold h2; rewrite length_app; reflexivity).
  destruct (take (b_stacked_items n bv) c0) as [bc|e];
    [destruct (linalg_solve (map (firstn n) Ac) bc)|];
    simpl in Hp; rewrite length_app in Hp; simpl in Hp;
    (eapply Nat.le_trans; [|exact Hp]); lia.
Qed.

(** On an input with at least [m] entries in [b], every combination is
    processed: the [A_constraints] arrays allocated by the loop are, in
    order, the selections made by the combinations. *)
Lemma for_each_selections A b n rows bv A_stacked b_stacked combos :
  Forall (Forall (fun i => (i < length rows + n)%nat)) combos ->
  (length rows <= length bv)%nat ->
  forall h acc,
    loop_store A b n rows bv A_stacked b_stacked h ->
    exists t,
      snd (for_each (loop_body A b n A_stacked b_stacked) combos acc h)
        = h ++ t /\
      Forall2 (selection_of n rows) combos (filter is_mat t).
Proof.
  intros Hc Hlen. induction Hc as [|c cs Hc _ IH]; intros h acc Hst.
  - exists []. simpl. rewrite app_nil_r. split; [reflexivity|constructor].
  - simpl for_each. unfold bind.
    rewrite (loop_body_run A b n rows bv A_stacked b_stacked h acc c Hst).
    destruct (take_Ok (A_stacked_rows n rows) c) as [Ac HAc].
    { unfold A_stacked_rows, np_eye.
      rewrite length_app, length_map, length_seq. exact Hc. }
    destruct (take_Ok (b_stacked_items n bv) c) as [bc Hbc].
    { unfold b_stacked_items, np_zeros. rewrite length_app, repeat_length.
      eapply List.Forall_impl; [|exact Hc]. simpl. intros; lia. }
    rewrite HAc, Hbc.
    destruct (linalg_solve (map (firstn n) Ac) bc) as [sol|e].
    + destruct (IH (h ++ [Mat n Ac; Vec bc; Vec (snap_to_zero sol)])
                  (if passes n rows bv (snap_to_zero sol)
                   then acc ++ [S (S (length h))] else acc)) as (t & Ht & Hf).
      { now apply loop_store_grow. }
      exists ([Mat n Ac; Vec bc; Vec (snap_to_zero sol)] ++ t).
      rewrite app_assoc. split; [exact Ht|].
      simpl. constructor; [now exists Ac|exact Hf].
    + destruct (IH (h ++ [Mat n Ac; Vec bc]) acc) as (t & Ht & Hf).
      { now apply loop_store_grow. }
      exists ([Mat n Ac; Vec bc] ++ t).
      rewrite app_assoc. split; [exact Ht|].
      simpl. constructor; [now exists Ac|exact Hf].
Qed.

(** Whenever no vertex survives, the reduction is over an empty list. *)
Lemma no_vertex_raises h A b c n rows bv cv h1 :
  h !! A = Some (Mat n rows) -> h !! b = Some (Vec bv) ->
  h !! c = Some (Vec cv) ->
  get_vertices A b h = (Ok [], h1) ->
  fst (LP_exhaustive_search A b c h) = Raise ValueError.
Proof.
  intros HA Hb Hc E.
  destruct (get_vertices_Ok _ _ _ _ _ _ _ _ HA Hb E) as (vs & Hvs & Hh & _).
  destruct (LP_exhaustive_search_spec h A b c n rows bv cv HA Hb Hc)
    as (t & ->).
  unfold optimal_value. rewrite Hvs. inversion Hh; subst. reflexivity.
Qed.

(** ** The claims *)

(** C1 (the code departs from the claim).  On the infeasible program
    [A = [[0]]], [b = [-1]], [c = [1]] no vertex survives, and
    [LP_exhaustive_search] ends in the [ValueError] that [np.min] raises on
    the empty list of objective values, not in a no-solution outcome. *)
Theorem LP_exhaustive_search_infeasible_raises :
  fst (get_vertices 0%nat 1%nat infeasible_lp) = Ok [] /\
  fst (LP_exhaustive_search 0%nat 1%nat 2%nat infeasible_lp) = Raise ValueError.
Proof. split; vm_compute; reflexivity. Qed.



(** C4.  The loop of [get_vertices] runs over [row_index_combinations m n]
    for an [m x n] array [A], building one selection of rows per
    combination, and these are exactly [C(m+n, n)] combinations: the
    strictly increasing lists of [n] indices below [m + n], each once; for
    [m = 12] and [n = 10] there are 646646. *)
Theorem row_index_combinations_count m n :
  (forall h A b rows bv,
      h !! A = Some (Mat n rows) -> h !! b = Some (Vec bv) ->
      length rows = m ->
      get_vertices A b h
      = for_each (loop_body A b n (length h) (S (length h)))
                 (row_index_combinations m n) []
                 (h ++ [Mat n (A_stacked_rows n rows);
                        Vec (b_stacked_items n bv)]) /\
      ((m <= length bv)%nat ->
       exists t,
         snd (get_vertices A b h)
         = h ++ [Mat n (A_stacked_rows n rows); Vec (b_stacked_items n bv)]
             ++ t /\
         Forall2 (selection_of n rows) (row_index_combinations m n)
                 (filter is_mat t) /\
         length (filter is_mat t) = choose (m + n) n)) /\
  length (row_index_combinations m n) = choose (m + n) n /\
  (choose (m + n) n * (fact m * fact n) = fact (m + n))%nat /\
  List.NoDup (row_index_combinations m n) /\
  (forall c, In c (row_index_combinations m n) <->
             length c = n /\ StronglySorted lt c /\
             Forall (fun i => (i < m + n)%nat) c) /\
  Z.of_nat (length (row_index_combinations 12 10)) = 646646%Z.
Proof.
  assert (Hcount : length (row_index_combinations m n) = choose (m + n) n).
  { unfold row_index_combinations.
    now rewrite combinations_length, length_seq. }
  split.
  { intros h A b rows bv HA Hb <-.
    rewrite (get_vertices_run h A b n rows bv HA Hb).
    split; [reflexivity|]. intros Hlen.
    destruct (for_each_selections A b n rows bv (length h) (S (length h))
                (row_index_combinations (length rows) n)
                (row_index_combinations_bound _ _) Hlen
                (h ++ [Mat n (A_stacked_rows n rows);
                       Vec (b_stacked_items n bv)]) [])
      as (t & Ht & Hf).
    { repeat split.
      - now apply lookup_grow.
      - now apply lookup_grow.
      - apply lookup_fresh.
      - rewrite (lookup_app_r h) by lia.
        now replace (S (length h) - length h)%nat with 1%nat by lia. }
    exists t. rewrite Ht, <- app_assoc. split; [reflexivity|].
    split; [exact Hf|].
    rewrite <- (Forall2_length _ _ _ Hf). exact Hcount. }
  split; [exact Hcount|].
  unfold row_index_combinations.
  split; [|split; [|split]].
  - now apply (choose_fact (m + n)).
  - apply combinations_NoDup, seq_sorted.
  - intros c. split.
    + intros H. split; [now apply combinations_incl in H|].
      split; [eapply combinations_sorted; [apply seq_sorted|exact H]|].
      apply combinations_incl in H as [_ Hi].
      apply List.Forall_forall. intros i Hin%Hi%in_seq. lia.
    + intros (<- & Hs & Hb). apply combinations_complete;
        [apply seq_sorted|exact Hs|].
      rewrite List.Forall_forall in Hb. intros i Hi. apply in_seq.
      specialize (Hb i Hi). lia.
  - rewrite combinations_length, length_seq. vm_compute. reflexivity.
Qed.

Lemma row_index_combinations_count_witness :
  (exists t,
      snd (get_vertices 0%nat 1%nat scenario2)
      = scenario2 ++ [Mat 2 [[1; 1]; [1; 0]; [1; 0]; [0; 1]];
                      Vec [4; 2; 0; 0]] ++ t /\
      Forall2 (selection_of 2 [[1; 1]; [1; 0]]) (row_index_combinations 2 2)
              (filter is_mat t) /\
      length (filter is_mat t) = choose (2 + 2) 2) /\
  length (row_index_combinations 2 2) = 6%nat /\
  In [1; 3]%nat (row_index_combinations 2 2).
Proof.
  destruct (row_index_combinations_count 2 2) as (Hrun & Hlen & _ & _ & Hin & _).
  split; [|split; [exact Hlen|]].
  - apply (proj2 (Hrun scenario2 0%nat 1%nat [[1; 1]; [1; 0]] [4; 2]
                    eq_refl eq_refl eq_refl)).
    simpl. lia.
  - apply Hin. repeat split.
    + repeat constructor.
    + repeat constructor.
Defined.



(** C6, as stated, fails.  The rows [[7, 1]] and [[35, 5]] are
    proportional, so the system selected by the combination [(0, 1)] is
    singular; in binary64 the elimination is left with the pivot [2^-53]
    and not with zero, [np.linalg.solve] returns the point [(0.25, 5.25)],
    the point passes the feasibility test, and [get_vertices] keeps it as
    its first vertex. *)
Lemma singular_combination_kept :
  singular [[7; 1]; [35; 5]] /\
  In [0; 1]%nat (row_index_combinations 2 2) /\
  take (A_stacked_rows 2 [[7; 1]; [35; 5]]) [0; 1]%nat
    = Ok [[7; 1]; [35; 5]] /\
  take (b_stacked_items 2 [7; 35]) [0; 1]%nat = Ok [7; 35] /\
  candidate 2 [[7; 1]; [35; 5]] [7; 35] [[7; 1]; [35; 5]] [7; 35]
    = [[1 # 4; 21 # 4]] /\
  loop_body 0%nat 1%nat 2 3%nat 4%nat [] [0; 1]%nat
            (proportional_lp ++ [Mat 2 [[7; 1]; [35; 5]; [1; 0]; [0; 1]];
                                 Vec [7; 35; 0; 0]])
    = (Ok [7%nat],
       (proportional_lp ++ [Mat 2 [[7; 1]; [35; 5]; [1; 0]; [0; 1]];
                            Vec [7; 35; 0; 0]])
         ++ [Mat 2 [[7; 1]; [35; 5]]; Vec [7; 35]; Vec [1 # 4; 21 # 4]]) /\
  fst (get_vertices 0%nat 1%nat proportional_lp)
    = Ok [7; 10; 13; 16; 19; 22]%nat /\
  snd (get_vertices 0%nat 1%nat proportional_lp) !! 7%nat
    = Some (Vec [1 # 4; 21 # 4]).
Proof.
  split.
  { exists [1; -7]. repeat split.
    - apply Exists_cons_hd. discriminate.
    - repeat constructor. }
  split; [now left|].
  repeat split; vm_compute; reflexivity.
Qed.

(** C6 (amended).  When [np.linalg.solve] reports the system selected by a
    combination as singular, raising [LinAlgError], the iteration adds no
    vertex and raises nothing, and the loop goes on with the remaining
    combinations from the same list of vertices. *)
Theorem reported_singular_combination_skipped
    h A b n rows bv A_stacked b_stacked acc combo Ac bc :
  loop_store A b n rows bv A_stacked b_stacked h ->
  take (A_stacked_rows n rows) combo = Ok Ac ->
  take (b_stacked_items n bv) combo = Ok bc ->
  linalg_solve (map (firstn n) Ac) bc = Raise LinAlgError ->
  candidate n rows bv Ac bc = [] /\
  loop_body A b n A_stacked b_stacked acc combo h
    = (Ok acc, h ++ [Mat n Ac; Vec bc]) /\
  forall rest,
    for_each (loop_body A b n A_stacked b_stacked) (combo :: rest) acc h
    = for_each (loop_body A b n A_stacked b_stacked) rest acc
               (h ++ [Mat n Ac; Vec bc]).
Proof.
  intros Hst HAc Hbc He.
  assert (Hbody : loop_body A b n A_stacked b_stacked acc combo h
                  = (Ok acc, h ++ [Mat n Ac; Vec bc])).
  { rewrite (loop_body_run A b n rows bv A_stacked b_stacked h acc combo Hst).
    now rewrite HAc, Hbc, He. }
  split; [unfold candidate; now rewrite He|].
  split; [exact Hbody|].
  intros rest. simpl. unfold bind. now rewrite Hbody.
Qed.

Lemma reported_singular_combination_skipped_witness :
  candidate 1 [[0]] [-1] [[0]] [-1] = [] /\
  loop_body 0%nat 1%nat 1 3%nat 4%nat [] [0%nat]
            (infeasible_lp ++ [Mat 1 [[0]; [1]]; Vec [-1; 0]])
    = (Ok [], (infeasible_lp ++ [Mat 1 [[0]; [1]]; Vec [-1; 0]])
                ++ [Mat 1 [[0]]; Vec [-1]]) /\
  forall rest,
    for_each (loop_body 0%nat 1%nat 1 3%nat 4%nat) ([0%nat] :: rest) []
             (infeasible_lp ++ [Mat 1 [[0]; [1]]; Vec [-1; 0]])
    = for_each (loop_body 0%nat 1%nat 1 3%nat 4%nat) rest []
               ((infeasible_lp ++ [Mat 1 [[0]; [1]]; Vec [-1; 0]])
                  ++ [Mat 1 [[0]]; Vec [-1]]).
Proof.
  apply (reported_singular_combination_skipped
           (infeasible_lp ++ [Mat 1 [[0]; [1]]; Vec [-1; 0]])
           0%nat 1%nat 1%nat [[0]] [-1] 3%nat 4%nat [] [0%nat] [[0]] [-1]).
  - repeat split.
  - reflexivity.
  - reflexivity.
  - reflexivity.
Defined.

(** C7, as stated, fails: on [A = [[1]]], [b = [5, 7]], [c = [1]] the
    dimensions disagree, yet the search runs to its end and returns [-5]. *)
Lemma malformed_input_not_rejected :
  malformed broadcast_lp 0 1 2 /\
  fst (LP_exhaustive_search 0%nat 1%nat 2%nat broadcast_lp) = Ok (-5 # 1) /\
  ~ fails_fast broadcast_lp 0 1 2.
Proof.
  split; [|split].
  - exists 1%nat, [[1]], [5; 7], [1]. repeat split. left. discriminate.
  - vm_compute. reflexivity.
  - intros [e He].
    assert (H : fst (LP_exhaustive_search 0%nat 1%nat 2%nat broadcast_lp)
                = Ok (-5 # 1)) by (vm_compute; reflexivity).
    rewrite He in H. discriminate.
Qed.

(** C7 (amended).  Nothing checks the dimensions before the enumeration.
    When [b] is shorter than the number of rows of [A] (and [n >= 1]), the
    search fails with the [IndexError] of the selection in the stacked [b],
    raised inside the loop, after the stacked arrays and the first
    selection were built.  When [c] has not [n] entries and a vertex was
    found, it fails with the [ValueError] of [np.dot], after the
    enumeration. *)
Theorem dimension_mismatch_outcomes h A b c n rows bv cv :
  h !! A = Some (Mat n rows) -> h !! b = Some (Vec bv) ->
  h !! c = Some (Vec cv) ->
  ((length bv < length rows)%nat -> (0 < n)%nat ->
   fst (LP_exhaustive_search A b c h) = Raise IndexError /\
   (length h + 3 <= length (snd (LP_exhaustive_search A b c h)))%nat) /\
  (length cv <> n ->
   forall ls h1, get_vertices A b h = (Ok ls, h1) -> ls <> [] ->
                 fst (LP_exhaustive_search A b c h) = Raise ValueError).
Proof.
  intros HA Hb Hc. split.
  - intros Hlt Hn.
    assert (Hv : vertices_of n rows bv = Raise IndexError).
    { apply (enumerate_fails n rows bv _ (seq (length rows) n)
               (length rows + n - 1)%nat).
      - apply row_index_combinations_bound.
      - apply last_rows_enumerated.
      - apply in_seq. lia.
      - lia. }
    assert (Hg := get_vertices_allocates h A b n rows bv HA Hb).
    destruct (get_vertices_spec h A b n rows bv HA Hb) as (t & _ & Hr).
    rewrite Hv in Hr.
    assert (E : LP_exhaustive_search A b c h
                = (Raise IndexError, snd (get_vertices A b h))).
    { unfold LP_exhaustive_search. apply bind_raise.
      destruct (get_vertices A b h) as [[ls|e] h1]; simpl in *;
        [discriminate|].
      now injection Hr as ->. }
    rewrite E. split; [reflexivity|exact Hg].
  - intros Hcn ls h1 E Hne.
    destruct (get_vertices_Ok _ _ _ _ _ _ _ _ HA Hb E) as (vs & Hvs & Hh & _).
    destruct (LP_exhaustive_search_spec h A b c n rows bv cv HA Hb Hc)
      as (t & ->).
    unfold optimal_value. rewrite Hvs. simpl fst.
    destruct vs as [|x0 vs]; [inversion Hh; subst; now destruct Hne|].
    rewrite objective_mismatch; [reflexivity|].
    rewrite (passes_length n rows bv x0); [congruence|].
    eapply enumerate_In; [exact Hvs|now left].
Qed.

Lemma dimension_mismatch_outcomes_witness :
  (fst (LP_exhaustive_search 0%nat 1%nat 2%nat short_b_lp) = Raise IndexError /\
   (length short_b_lp + 3
    <= length (snd (LP_exhaustive_search 0%nat 1%nat 2%nat short_b_lp)))%nat) /\
  fst (LP_exhaustive_search 0%nat 1%nat 2%nat long_c_lp) = Raise ValueError.
Proof.
  split.
  - apply (proj1 (dimension_mismatch_outcomes short_b_lp 0%nat 1%nat 2%nat
                    1%nat [[1]; [1]] [1] [1] eq_refl eq_refl eq_refl)).
    + simpl. lia.
    + lia.
  - apply (proj2 (dimension_mismatch_outcomes long_c_lp 0%nat 1%nat 2%nat
                    1%nat [[1]] [5] [1; 2] eq_refl eq_refl eq_refl)
             ltac:(discriminate)
             (match fst (get_vertices 0%nat 1%nat long_c_lp) with
              | Ok ls => ls | Raise _ => [] end)
             (snd (get_vertices 0%nat 1%nat long_c_lp))).
    + vm_compute. reflexivity.
    + vm_compute. discriminate.
Defined.

(** C8.  Two invocations of [LP_exhaustive_search] on the same arrays, the
    second in the store left by the first, return the same outcome; more
    generally the outcome is the same in any store where [A], [b] and [c]
    have the same contents. *)
Theorem LP_exhaustive_search_deterministic h A b c n rows bv cv :
  h !! A = Some (Mat n rows) -> h !! b = Some (Vec bv) ->
  h !! c = Some (Vec cv) ->
  fst (LP_exhaustive_search A b c (snd (LP_exhaustive_search A b c h)))
  = fst (LP_exhaustive_search A b c h) /\
  forall h', h' !! A = h !! A -> h' !! b = h !! b -> h' !! c = h !! c ->
             fst (LP_exhaustive_search A b c h')
             = fst (LP_exhaustive_search A b c h).
Proof.
  intros HA Hb Hc.
  destruct (LP_exhaustive_search_spec h A b c n rows bv cv HA Hb Hc)
    as (t & E).
  split.
  - rewrite E. simpl.
    destruct (LP_exhaustive_search_spec (h ++ t) A b c n rows bv cv)
      as (t' & ->); auto using lookup_grow.
  - intros h' HA' Hb' Hc'. rewrite E.
    rewrite HA in HA'. rewrite Hb in Hb'. rewrite Hc in Hc'.
    destruct (LP_exhaustive_search_spec h' A b c n rows bv cv HA' Hb' Hc')
      as (t' & ->).
    reflexivity.
Qed.

Lemma LP_exhaustive_search_deterministic_witness :
  fst (LP_exhaustive_search 0%nat 1%nat 2%nat
         (snd (LP_exhaustive_search 0%nat 1%nat 2%nat scenario2)))
  = fst (LP_exhaustive_search 0%nat 1%nat 2%nat scenario2) /\
  fst (LP_exhaustive_search 0%nat 1%nat 2%nat (scenario2 ++ scenario1))
  = fst (LP_exhaustive_search 0%nat 1%nat 2%nat scenario2).
Proof.
  destruct (LP_exhaustive_search_deterministic scenario2 0%nat 1%nat 2%nat
              2%nat [[1; 1]; [1; 0]] [4; 2] [3; 2] eq_refl eq_refl eq_refl)
    as [H1 H2].
  split; [exact H1|].
  apply (H2 (scenario2 ++ scenario1)); reflexivity.
Defined.

(** C9.  The bare [except] catches whatever the guarded block raises: the
    [try] statement always completes, an exception of the block leaves the
    list of vertices as it was and the loop goes on with the next
    combination, and the only exception that can leave [get_vertices] is
    the [IndexError] of the selection made before the [try], when [b] is
    shorter than the number of rows of [A]. *)
Theorem handler_suppresses_every_exception A b n Al bl acc h :
  (exists r h1,
      try_except (solve_and_check A b n Al bl acc) (ret acc) h = (Ok r, h1)) /\
  (forall e h1,
      solve_and_check A b n Al bl acc h = (Raise e, h1) ->
      try_except (solve_and_check A b n Al bl acc) (ret acc) h = (Ok acc, h1)) /\
  (forall A_stacked b_stacked combo rest h0 h1 h2 e,
      take_rows A_stacked combo h0 = (Ok Al, h1) ->
      take_items b_stacked combo h1 = (Ok bl, h) ->
      solve_and_check A b n Al bl acc h = (Raise e, h2) ->
      for_each (loop_body A b n A_stacked b_stacked) (combo :: rest) acc h0
      = for_each (loop_body A b n A_stacked b_stacked) rest acc h2) /\
  (forall rows bv e,
      h !! A = Some (Mat n rows) -> h !! b = Some (Vec bv) ->
      fst (get_vertices A b h) = Raise e ->
      e = IndexError /\ (length bv < length rows)%nat).
Proof.
  split; [|split; [|split]].
  - unfold try_except.
    destruct (solve_and_check A b n Al bl acc h) as [[r|e] h1]; eauto.
  - intros e h1 E. unfold try_except. now rewrite E.
  - intros A_stacked b_stacked combo rest h0 h1 h2 e E1 E2 E3.
    simpl. unfold bind at 1, loop_body.
    rewrite (bind_run _ _ _ _ _ E1), (bind_run _ _ _ _ _ E2).
    unfold try_except. now rewrite E3.
  - intros rows bv e HA Hb E.
    destruct (get_vertices_spec h A b n rows bv HA Hb) as (t & _ & Hr).
    destruct (vertices_of n rows bv) as [vs|e'] eqn:Hv.
    + destruct Hr as (ls & Hls & _). congruence.
    + assert (e = e') by congruence. subst e'.
      split; [eapply enumerate_Raise, Hv|].
      destruct (Nat.lt_ge_cases (length bv) (length rows)) as [|Hge];
        [assumption|].
      destruct (enumerate_Ok n rows bv _
                  (row_index_combinations_bound (length rows) n) Hge)
        as [vs Hvs].
      unfold vertices_of in Hv. congruence.
Qed.

Lemma handler_suppresses_every_exception_witness :
  solve_and_check 0%nat 1%nat 1 5%nat 6%nat []
    (mismatched_lp ++ [Mat 1 [[1]; [1]; [1]]; Vec [1; 2; 3; 0];
                       Mat 1 [[1]]; Vec [1]])
  = (Raise ValueError,
     mismatched_lp ++ [Mat 1 [[1]; [1]; [1]]; Vec [1; 2; 3; 0];
                       Mat 1 [[1]]; Vec [1]; Vec [1]]) /\
  try_except (solve_and_check 0%nat 1%nat 1 5%nat 6%nat []) (ret [])
    (mismatched_lp ++ [Mat 1 [[1]; [1]; [1]]; Vec [1; 2; 3; 0];
                       Mat 1 [[1]]; Vec [1]])
  = (Ok [], mismatched_lp ++ [Mat 1 [[1]; [1]; [1]]; Vec [1; 2; 3; 0];
                              Mat 1 [[1]]; Vec [1]; Vec [1]]) /\
  (forall rest,
      for_each (loop_body 0%nat 1%nat 1 3%nat 4%nat) ([0%nat] :: rest) []
        (mismatched_lp ++ [Mat 1 [[1]; [1]; [1]]; Vec [1; 2; 3; 0]])
      = for_each (loop_body 0%nat 1%nat 1 3%nat 4%nat) rest []
          (mismatched_lp ++ [Mat 1 [[1]; [1]; [1]]; Vec [1; 2; 3; 0];
                             Mat 1 [[1]]; Vec [1]; Vec [1]])) /\
  fst (get_vertices 0%nat 1%nat mismatched_lp) = Ok [] /\
  (fst (get_vertices 0%nat 1%nat short_b_lp) = Raise IndexError /\
   (length [1] < length [[1]; [1]])%nat).
Proof.
  pose (h0 := mismatched_lp ++ [Mat 1 [[1]; [1]; [1]]; Vec [1; 2; 3; 0]]).
  pose (h := h0 ++ [Mat 1 [[1]]; Vec [1]]).
  assert (E : solve_and_check 0%nat 1%nat 1 5%nat 6%nat [] h
              = (Raise ValueError, h ++ [Vec [1]]))
    by (vm_compute; reflexivity).
  destruct (handler_suppresses_every_exception 0%nat 1%nat 1%nat 5%nat 6%nat
              [] h) as (_ & Hcatch & Hnext & _).
  split; [exact E|]. split; [exact (Hcatch ValueError _ E)|].
  split; [|split].
  - intros rest.
    apply (Hnext 3%nat 4%nat [0%nat] rest h0 (h0 ++ [Mat 1 [[1]]]) _
             ValueError); [reflexivity|reflexivity|exact E].
  - vm_compute. reflexivity.
  - assert (E2 : fst (get_vertices 0%nat 1%nat short_b_lp) = Raise IndexError)
      by (vm_compute; reflexivity).
    split; [exact E2|].
    exact (proj2 (proj2 (proj2 (proj2 (handler_suppresses_every_exception
                                         0%nat 1%nat 1%nat 0%nat 0%nat []
                                         short_b_lp)))
                    [[1]; [1]] [1] IndexError eq_refl eq_refl E2)).
Defined.

(** C10.  Every array that exists before a call of [get_vertices] or
    [LP_exhaustive_search], the inputs [A], [b] and [c] among them, has the
    same contents after it, whatever the outcome; the write of the
    snap-to-zero step stays inside the block that allocated its target. *)
Theorem inputs_unchanged h A b c l a :
  h !! l = Some a ->
  snd (get_vertices A b h) !! l = Some a /\
  snd (LP_exhaustive_search A b c h) !! l = Some a /\
  forall n Al bl acc, snd (solve_and_check A b n Al bl acc h) !! l = Some a.
Proof.
  intros Hl. split; [|split].
  - now apply (grows_lookup _ h l a (grows_get_vertices A b)).
  - now apply (grows_lookup _ h l a (grows_LP_exhaustive_search A b c)).
  - intros n Al bl acc.
    now apply (grows_lookup _ h l a (grows_solve_and_check A b n Al bl acc)).
Qed.

Lemma inputs_unchanged_witness :
  snd (get_vertices 0%nat 1%nat scenario2) !! 0%nat
    = Some (Mat 2 [[1; 1]; [1; 0]]) /\
  snd (LP_exhaustive_search 0%nat 1%nat 2%nat scenario2) !! 0%nat
    = Some (Mat 2 [[1; 1]; [1; 0]]) /\
  forall n Al bl acc,
    snd (solve_and_check 0%nat 1%nat n Al bl acc scenario2) !! 0%nat
    = Some (Mat 2 [[1; 1]; [1; 0]]).
Proof.
  apply (inputs_unchanged scenario2 0%nat 1%nat 2%nat 0%nat
           (Mat 2 [[1; 1]; [1; 0]])).
  reflexivity.
Defined.


(** * Further properties of the enumeration *)

(** ** The origin is always tried *)

Lemma eye_rows n : Forall (fun r => length r = n) (np_eye n).
Proof.
  apply List.Forall_map, List.Forall_forall. intros i _.
  now rewrite length_map, length_seq.
Qed.

Lemma firstn_eye n : map (firstn n) (np_eye n) = np_eye n.
Proof.
  assert (H := eye_rows n). induction H as [|r l Hr _ IH]; simpl;
    [reflexivity|].
  rewrite IH, firstn_all2 by lia. reflexivity.
Qed.

(** Selecting the last rows of a stacked array gives its second block. *)
Lemma take_app_seq {A} (l2 : list A) : forall l1,
  take (l1 ++ l2) (seq (length l1) (length l2)) = Ok l2.
Proof.
  induction l2 as [|x l2 IH]; intros l1; simpl; [reflexivity|].
  rewrite list_lookup_middle by reflexivity.
  specialize (IH (l1 ++ [x])).
  rewrite <- app_assoc, length_app in IH. simpl in IH.
  replace (length l1 + 1)%nat with (S (length l1)) in IH by lia.
  now rewrite IH.
Qed.

Lemma snap_to_zero_zero sol :
  Forall (fun si => si == 0) sol ->
  snap_to_zero sol = np_zeros (length sol).
Proof.
  induction 1 as [|s sol Hs _ IH]; simpl; [reflexivity|].
  unfold np_zeros in IH. rewrite IH. f_equal.
  unfold Qltb. rewrite Hs. reflexivity.
Qed.

Section Origin.
Variables (n : nat) (rows : list (list Q)) (bv : list Q).
Hypothesis Hlen : length bv = length rows.
Hypothesis Hb : Forall (fun bi => - 1e-10 <= bi) bv.

Lemma passes_origin : passes n rows bv (np_zeros n) = true.
Proof.
  unfold passes, matmul, np_le, np_zeros.
  rewrite repeat_length, Nat.eqb_refl, !length_map, <- Hlen, Nat.eqb_refl.
  apply andb_true_intro. split.
  - apply np_all_true, List.Forall_map, List.Forall_forall.
    intros q Hq%repeat_spec. now subst.
  - apply np_all_true. clear Hlen.
    revert bv Hb. induction rows as [|r rs IH]; intros [|bi bs] Hbs;
      simpl; constructor.
    + inversion Hbs; subst. apply Qle_bool_iff.
      rewrite dot_zero_r.
      * apply (Qle_trans _ (- 1e-10 + 1e-10)); [discriminate|].
        apply Qplus_le_compat; [assumption|apply Qle_refl].
      * apply List.Forall_forall. intros q Hq%repeat_spec. now subst.
    + apply IH. now inversion Hbs.
Qed.

(** The system of the [n] identity rows has the origin as its point. *)
Lemma candidate_origin :
  candidate n rows bv (np_eye n) (np_zeros n) = [np_zeros n].
Proof.
  unfold candidate. rewrite firstn_eye, linalg_solve_eye.
  assert (Hz : Forall (fun si => si == 0) (np_zeros n)).
  { apply List.Forall_forall. intros q Hq%repeat_spec. now subst. }
  rewrite (snap_to_zero_zero _ Hz).
  replace (length (np_zeros n)) with n by (symmetry; apply repeat_length).
  rewrite passes_origin. reflexivity.
Qed.
End Origin.

Lemma enumerate_incl n rows bv combos : forall vs c Ac bc,
  enumerate n rows bv combos = Ok vs -> In c combos ->
  take (A_stacked_rows n rows) c = Ok Ac ->
  take (b_stacked_items n bv) c = Ok bc ->
  incl (candidate n rows bv Ac bc) vs.
Proof.
  induction combos as [|c' cs IH]; simpl; intros vs c Ac bc E Hin HAc Hbc;
    [destruct Hin|].
  destruct (take (A_stacked_rows n rows) c') as [Ac'|] eqn:E1; [|discriminate].
  destruct (take (b_stacked_items n bv) c') as [bc'|] eqn:E2; [|discriminate].
  destruct (enumerate n rows bv cs) as [vs'|] eqn:E3; [|discriminate].
  injection E as <-. destruct Hin as [->|Hin].
  - rewrite HAc in E1. rewrite Hbc in E2.
    injection E1 as <-. injection E2 as <-. now apply incl_appl.
  - apply incl_appr. now apply (IH vs' c Ac bc).
Qed.

(** With consistent dimensions and [b >= -1e-10], the enumeration succeeds
    and the origin is among its vertices. *)
Lemma origin_found n rows bv :
  length bv = length rows -> Forall (fun bi => - 1e-10 <= bi) bv ->
  exists vs, vertices_of n rows bv = Ok vs /\ In (np_zeros n) vs.
Proof.
  intros Hlen Hb.
  destruct (enumerate_Ok n rows bv _
              (row_index_combinations_bound (length rows) n)) as [vs Hvs];
    [lia|].
  exists vs. split; [exact Hvs|].
  apply (enumerate_incl n rows bv _ vs (seq (length rows) n)
           (np_eye n) (np_zeros n) Hvs).
  - apply last_rows_enumerated.
  - unfold A_stacked_rows.
    assert (H := take_app_seq (np_eye n) rows).
    unfold np_eye in H at 2. now rewrite length_map, length_seq in H.
  - unfold b_stacked_items. rewrite <- Hlen.
    assert (H := take_app_seq (np_zeros n) bv).
    unfold np_zeros in H at 2. now rewrite repeat_length in H.
  - rewrite (candidate_origin n rows bv Hlen Hb). now left.
Qed.

Lemma get_vertices_returns h A b n rows bv vs :
  h !! A = Some (Mat n rows) -> h !! b = Some (Vec bv) ->
  vertices_of n rows bv = Ok vs ->
  exists ls h1, get_vertices A b h = (Ok ls, h1) /\ holds h1 ls vs /\
                exists t, h1 = h ++ t.
Proof.
  intros HA Hb Hvs.
  destruct (get_vertices_spec h A b n rows bv HA Hb) as (t & Ht & Hr).
  rewrite Hvs in Hr. destruct Hr as (ls & Hls & Hh).
  exists ls, (h ++ t). split; [|split; [exact Hh|now exists t]].
  rewrite <- Ht, <- Hls. now destruct (get_vertices A b h).
Qed.

Lemma optimal_value_on_vertices n rows bv cv vs :
  length cv = n -> vertices_of n rows bv = Ok vs ->
  optimal_value n rows bv cv = np_min (map (dot (map Qopp cv)) vs).
Proof.
  intros Hcn Hvs. unfold optimal_value. rewrite Hvs, objective_Ok;
    [reflexivity|].
  apply List.Forall_forall. intros x Hx. rewrite Hcn.
  eapply passes_length, enumerate_In; eauto.
Qed.

(** X1.  With consistent dimensions and every [b_i >= -1e-10], the origin
    is one of the vertices returned by [get_vertices], whatever [A] is. *)
Theorem origin_is_returned h A b n rows bv :
  h !! A = Some (Mat n rows) -> h !! b = Some (Vec bv) ->
  length bv = length rows -> Forall (fun bi => - 1e-10 <= bi) bv ->
  exists ls h1 l,
    get_vertices A b h = (Ok ls, h1) /\ In l ls /\
    h1 !! l = Some (Vec (np_zeros n)).
Proof.
  intros HA Hb Hlen Hbv.
  destruct (origin_found n rows bv Hlen Hbv) as (vs & Hvs & Hin).
  destruct (get_vertices_returns h A b n rows bv vs HA Hb Hvs)
    as (ls & h1 & E & Hh & _).
  destruct (holds_In_r _ _ _ _ Hh Hin) as (l & Hl & Hlx).
  now exists ls, h1, l.
Qed.

Lemma origin_is_returned_witness :
  exists ls h1 l,
    get_vertices 0%nat 1%nat scenario2 = (Ok ls, h1) /\ In l ls /\
    h1 !! l = Some (Vec (np_zeros 2)).
Proof.
  apply (origin_is_returned scenario2 0%nat 1%nat 2%nat
           [[1; 1]; [1; 0]] [4; 2]).
  - reflexivity.
  - reflexivity.
  - reflexivity.
  - repeat constructor; discriminate.
Defined.

(** The least objective value is below the one of each vertex. *)
Lemma optimal_value_below n rows bv cv vs x :
  length cv = n -> vertices_of n rows bv = Ok vs -> In x vs ->
  exists v, optimal_value n rows bv cv = Ok v /\ v <= dot (map Qopp cv) x.
Proof.
  intros Hcn Hvs Hin.
  rewrite (optimal_value_on_vertices n rows bv cv vs Hcn Hvs).
  destruct vs as [|x0 vs]; [destruct Hin|].
  simpl map. simpl np_min. eexists. split; [reflexivity|].
  destruct (fold_left_Qmin (map (dot (map Qopp cv)) vs)
              (dot (map Qopp cv) x0)) as [_ Hle].
  change (Forall (fun e => fold_left Qmin (map (dot (map Qopp cv)) vs)
                             (dot (map Qopp cv) x0) <= e)
                 (map (dot (map Qopp cv)) (x0 :: vs))) in Hle.
  rewrite List.Forall_forall in Hle. apply Hle, in_map, Hin.
Qed.

Lemma optimal_value_nonneg_b n rows bv cv :
  length bv = length rows -> length cv = n ->
  Forall (fun bi => - 1e-10 <= bi) bv ->
  exists v, optimal_value n rows bv cv = Ok v /\ v <= 0.
Proof.
  intros Hlen Hcn Hbv.
  destruct (origin_found n rows bv Hlen Hbv) as (vs & Hvs & Hin).
  destruct (optimal_value_below n rows bv cv vs _ Hcn Hvs Hin)
    as (v & Hv & Hle).
  exists v. split; [exact Hv|].
  eapply Qle_trans; [exact Hle|].
  rewrite dot_zero_r; [apply Qle_refl|].
  apply List.Forall_forall. intros q Hq%repeat_spec. now subst.
Qed.



(** X3.  On a program with consistent dimensions the enumeration itself
    never fails, and the only way [LP_exhaustive_search] can fail is the
    [ValueError] of [np.min], which it raises exactly when [get_vertices]
    returns the empty list. *)
Theorem only_failure_is_the_empty_reduction h A b c n rows bv cv :
  h !! A = Some (Mat n rows) -> h !! b = Some (Vec bv) ->
  h !! c = Some (Vec cv) ->
  length bv = length rows -> length cv = n ->
  exists ls h1,
    get_vertices A b h = (Ok ls, h1) /\
    (ls = [] -> fst (LP_exhaustive_search A b c h) = Raise ValueError) /\
    (ls <> [] -> exists v, fst (LP_exhaustive_search A b c h) = Ok v) /\
    (forall e, fst (LP_exhaustive_search A b c h) = Raise e ->
               e = ValueError /\ ls = []).
Proof.
  intros HA Hb Hc Hlen Hcn.
  destruct (enumerate_Ok n rows bv _
              (row_index_combinations_bound (length rows) n)) as [vs Hvs];
    [lia|].
  destruct (get_vertices_returns h A b n rows bv vs HA Hb Hvs)
    as (ls & h1 & E & Hh & _).
  exists ls, h1. split; [exact E|].
  destruct (LP_exhaustive_search_spec h A b c n rows bv cv HA Hb Hc)
    as (t & ->). simpl fst.
  rewrite (optimal_value_on_vertices n rows bv cv vs Hcn Hvs).
  destruct Hh as [|l x ls vs Hl Hh]; simpl.
  - split; [reflexivity|]. split; [now intros []|].
    intros e [= <-]. now split.
  - split; [discriminate|]. split; [eauto|]. discriminate.
Qed.

Lemma only_failure_is_the_empty_reduction_witness :
  exists ls h1,
    get_vertices 0%nat 1%nat infeasible_lp = (Ok ls, h1) /\
    (ls = [] ->
     fst (LP_exhaustive_search 0%nat 1%nat 2%nat infeasible_lp)
     = Raise ValueError) /\
    (ls <> [] ->
     exists v, fst (LP_exhaustive_search 0%nat 1%nat 2%nat infeasible_lp)
               = Ok v) /\
    (forall e, fst (LP_exhaustive_search 0%nat 1%nat 2%nat infeasible_lp)
               = Raise e -> e = ValueError /\ ls = []).
Proof.
  apply (only_failure_is_the_empty_reduction infeasible_lp 0%nat 1%nat 2%nat
           1%nat [[0]] [-1] [1]); reflexivity.
Defined.

(** ** The arrays returned are new and distinct *)

Lemma sorted_snoc (l : list nat) x :
  StronglySorted lt l -> Forall (fun y => (y < x)%nat) l ->
  StronglySorted lt (l ++ [x]).
Proof.
  induction 1 as [|a l Hl IH Ha]; intros Hx; simpl.
  - repeat constructor.
  - inversion Hx; subst. constructor; [now apply IH|].
    apply List.Forall_app. split; [exact Ha|]. now repeat constructor.
Qed.

Lemma sorted_NoDup (l : list nat) : StronglySorted lt l -> List.NoDup l.
Proof.
  induction 1 as [|a l Hl IH Ha]; constructor; [|exact IH].
  intros Hin. rewrite List.Forall_forall in Ha. specialize (Ha a Hin). lia.
Qed.

Lemma for_each_locations A b n rows bv A_stacked b_stacked combos :
  forall h acc ls h1,
    loop_store A b n rows bv A_stacked b_stacked h ->
    StronglySorted lt acc -> Forall (fun l => (l < length h)%nat) acc ->
    for_each (loop_body A b n A_stacked b_stacked) combos acc h
      = (Ok ls, h1) ->
    StronglySorted lt ls /\ Forall (fun l => (l < length h1)%nat) ls /\
    (exists new, ls = acc ++ new /\
                 Forall (fun l => (length h <= l)%nat) new) /\
    (length ls <= length acc + length combos)%nat.
Proof.
  induction combos as [|c cs IH]; intros h acc ls h1 Hst Hs Hacc E.
  - simpl in E. injection E as <- <-. repeat split; auto.
    + exists []. now rewrite app_nil_r.
    + simpl. lia.
  - simpl in E. unfold bind in E.
    rewrite (loop_body_run A b n rows bv A_stacked b_stacked h acc c Hst) in E.
    destruct (take (A_stacked_rows n rows) c) as [Ac|]; [|discriminate].
    destruct (take (b_stacked_items n bv) c) as [bc|]; [|discriminate].
    destruct (linalg_solve (map (firstn n) Ac) bc) as [sol|].
    + set (h' := h ++ [Mat n Ac; Vec bc; Vec (snap_to_zero sol)]) in *.
      assert (Hl' : length h' = (length h + 3)%nat)
        by (unfold h'; rewrite length_app; reflexivity).
      assert (Hacc' : Forall (fun l => (l < length h')%nat) acc).
      { eapply List.Forall_impl; [|exact Hacc]. simpl. intros; lia. }
      destruct (passes n rows bv (snap_to_zero sol)).
      * destruct (IH h' (acc ++ [S (S (length h))]) ls h1)
          as (H1 & H2 & (new & -> & H3) & H4); auto.
        { now apply loop_store_grow. }
        { apply sorted_snoc; [exact Hs|].
          eapply List.Forall_impl; [|exact Hacc]. simpl. intros; lia. }
        { apply List.Forall_app. split; [exact Hacc'|].
          repeat constructor. lia. }
        repeat split; auto.
        -- exists (S (S (length h)) :: new). rewrite <- app_assoc.
           split; [reflexivity|]. constructor; [lia|].
           eapply List.Forall_impl; [|exact H3]. simpl. intros; lia.
        -- rewrite !length_app in H4 |- *. simpl in H4 |- *. lia.
      * destruct (IH h' acc ls h1) as (H1 & H2 & (new & -> & H3) & H4); auto.
        { now apply loop_store_grow. }
        repeat split; auto.
        -- exists new. split; [reflexivity|].
           eapply List.Forall_impl; [|exact H3]. simpl. intros; lia.
        -- simpl. lia.
    + set (h' := h ++ [Mat n Ac; Vec bc]) in *.
      assert (Hl' : length h' = (length h + 2)%nat)
        by (unfold h'; rewrite length_app; reflexivity).
      destruct (IH h' acc ls h1) as (H1 & H2 & (new & -> & H3) & H4); auto.
      { now apply loop_store_grow. }
      { eapply List.Forall_impl; [|exact Hacc]. simpl. intros; lia. }
      repeat split; auto.
      * exists new. split; [reflexivity|].
        eapply List.Forall_impl; [|exact H3]. simpl. intros; lia.
      * simpl. lia.
Qed.

(** X5.  The arrays in the list returned by [get_vertices] are pairwise
    distinct objects created by the call: none existed before it (so none
    is [A], [b] or any other array of the caller), and there are at most
    [C(m+n, n)] of them. *)
Theorem returned_vertices_are_fresh h A b n rows bv ls h1 :
  h !! A = Some (Mat n rows) -> h !! b = Some (Vec bv) ->
  get_vertices A b h = (Ok ls, h1) ->
  List.NoDup ls /\
  Forall (fun l => h !! l = None /\ l <> A /\ l <> b /\
                   exists x, h1 !! l = Some (Vec x)) ls /\
  (length ls <= choose (length rows + n) n)%nat.
Proof.
  intros HA Hb E.
  destruct (get_vertices_Ok _ _ _ _ _ _ _ _ HA Hb E) as (vs & _ & Hh & _).
  rewrite (get_vertices_run h A b n rows bv HA Hb) in E.
  assert (Hst : loop_store A b n rows bv (length h) (S (length h))
                  (h ++ [Mat n (A_stacked_rows n rows);
                         Vec (b_stacked_items n bv)])).
  { repeat split.
    - now apply lookup_grow.
    - now apply lookup_grow.
    - apply lookup_fresh.
    - rewrite (lookup_app_r h) by lia.
      now replace (S (length h) - length h)%nat with 1%nat by lia. }
  destruct (for_each_locations A b n rows bv (length h) (S (length h))
              _ _ [] ls h1 Hst (SSorted_nil lt) (List.Forall_nil _) E)
    as (Hs & _ & (new & Hnew' & Hnew) & Hlen).
  simpl in Hnew'. subst new.
  split; [now apply sorted_NoDup|]. split.
  - rewrite List.Forall_forall in Hnew. apply List.Forall_forall.
    intros l Hl. specialize (Hnew l Hl).
    rewrite length_app in Hnew. simpl in Hnew.
    assert (HlA := lookup_lt_Some _ _ _ HA).
    assert (Hlb := lookup_lt_Some _ _ _ Hb).
    split; [apply lookup_ge_None_2; lia|]. split; [lia|]. split; [lia|].
    destruct (holds_In_l _ _ _ _ Hh Hl) as (x & _ & Hx). eauto.
  - simpl in Hlen. unfold row_index_combinations in Hlen.
    now rewrite combinations_length, length_seq in Hlen.
Qed.

Lemma returned_vertices_are_fresh_witness :
  List.NoDup [7; 10; 18; 21]%nat /\
  Forall (fun l => scenario2 !! l = None /\ l <> 0%nat /\ l <> 1%nat /\
                   exists x, snd (get_vertices 0%nat 1%nat scenario2) !! l
                             = Some (Vec x)) [7; 10; 18; 21]%nat /\
  (length [7; 10; 18; 21]%nat <= choose (length [[1; 1]; [1; 0]] + 2) 2)%nat.
Proof.
  apply (returned_vertices_are_fresh scenario2 0%nat 1%nat 2%nat
           [[1; 1]; [1; 0]] [4; 2]).
  - reflexivity.
  - reflexivity.
  - vm_compute. reflexivity.
Defined.

(** ** Programs without constraint rows, and unbounded programs *)

Lemma combinations_gt {A} (l : list A) : forall k,
  (length l < k)%nat -> combinations l k = [].
Proof.
  induction l as [|x t IH]; intros [|k] Hk; simpl in *; try lia;
    [reflexivity|].
  rewrite !IH by lia. reflexivity.
Qed.

Lemma combinations_all {A} (l : list A) : combinations l (length l) = [l].
Proof.
  induction l as [|x t IH]; simpl; [reflexivity|].
  rewrite IH, combinations_gt by lia. reflexivity.
Qed.

Lemma vertices_of_no_rows n : vertices_of n [] [] = Ok [np_zeros n].
Proof.
  unfold vertices_of, row_index_combinations. simpl length. simpl plus.
  assert (Hall := combinations_all (seq 0 n)). rewrite length_seq in Hall.
  rewrite Hall. simpl.
  assert (HA := take_app_seq (np_eye n) []).
  unfold np_eye in HA at 2. rewrite length_map, length_seq in HA.
  simpl in HA. unfold A_stacked_rows. simpl app. rewrite HA.
  assert (HB := take_app_seq (np_zeros n) []).
  unfold np_zeros in HB at 2. rewrite repeat_length in HB.
  simpl in HB. unfold b_stacked_items. simpl app. rewrite HB.
  rewrite (candidate_origin n [] [] eq_refl (List.Forall_nil _)).
  reflexivity.
Qed.

(** X6.  For an [A] without rows (and an empty [b]) there is a single
    combination, the [n] identity rows: [get_vertices] returns the origin
    alone and [LP_exhaustive_search] returns [0], whatever the objective
    [c] is. *)
Theorem no_constraints_gives_zero h A b c n cv :
  h !! A = Some (Mat n []) -> h !! b = Some (Vec []) ->
  h !! c = Some (Vec cv) -> length cv = n ->
  (exists l h1, get_vertices A b h = (Ok [l], h1) /\
                h1 !! l = Some (Vec (np_zeros n))) /\
  exists v, fst (LP_exhaustive_search A b c h) = Ok v /\ v == 0.
Proof.
  intros HA Hb Hc Hcn. split.
  - destruct (get_vertices_returns h A b n [] [] _ HA Hb
                (vertices_of_no_rows n)) as (ls & h1 & E & Hh & _).
    inversion Hh as [|l x ls' vs' Hl Hrest]; subst.
    inversion Hrest; subst. now exists l, h1.
  - destruct (LP_exhaustive_search_spec h A b c n [] [] cv HA Hb Hc)
      as (t & ->). simpl fst.
    rewrite (optimal_value_on_vertices n [] [] cv _ Hcn
               (vertices_of_no_rows n)).
    simpl. eexists. split; [reflexivity|].
    apply dot_zero_r, List.Forall_forall. intros q Hq%repeat_spec. now subst.
Qed.

Lemma no_constraints_gives_zero_witness :
  (exists l h1,
      get_vertices 0%nat 1%nat [Mat 2 []; Vec []; Vec [3; 2]]
      = (Ok [l], h1) /\ h1 !! l = Some (Vec (np_zeros 2))) /\
  exists v,
    fst (LP_exhaustive_search 0%nat 1%nat 2%nat
           [Mat 2 []; Vec []; Vec [3; 2]]) = Ok v /\ v == 0.
Proof.
  apply (no_constraints_gives_zero [Mat 2 []; Vec []; Vec [3; 2]]
           0%nat 1%nat 2%nat 2%nat [3; 2]); reflexivity.
Defined.






(** ** The generator *)

Lemma rint_range q :
  0 <= q -> q < 100 -> int_0_100 (rint q).
Proof.
  intros H0 H100.
  assert (Hf0 : (0 <= Qfloor q)%Z).
  { change 0%Z with (Qfloor 0). now apply Qfloor_resp_le. }
  assert (Hf99 : (Qfloor q < 100)%Z).
  { rewrite Zlt_Qlt. eapply Qle_lt_trans; [apply Qfloor_le|exact H100]. }
  unfold rint, int_0_100.
  destruct (q - inject_Z (Qfloor q) ?= 1 # 2);
    [destruct (Z.even (Qfloor q))| |]; eexists; (split; [reflexivity|lia]).
Qed.

Section GeneratorFacts.
Variable rng : Type.
Variable randint : nat -> nat -> rng -> nat * rng.
Variable random_sample : rng -> Q * rng.
Hypothesis randint_range :
  forall a b g, (a <= b)%nat -> (a <= fst (randint a b g) <= b)%nat.
Hypothesis random_sample_range :
  forall g, 0 <= fst (random_sample g) /\ fst (random_sample g) < 1.

Lemma rand_vec_spec k : forall g,
  length (fst (rand_vec rng random_sample k g)) = k /\
  Forall (fun u => 0 <= u /\ u < 1) (fst (rand_vec rng random_sample k g)).
Proof.
  induction k as [|k IH]; intros g; simpl; [split; [reflexivity|constructor]|].
  assert (Hu := random_sample_range g).
  destruct (random_sample g) as [u g1]. specialize (IH g1).
  destruct (rand_vec rng random_sample k g1) as [us g2]. simpl in *.
  destruct IH as [Hl Hf]. split; [now rewrite Hl|now constructor].
Qed.

Lemma rand_mat_spec m n : forall g,
  length (fst (rand_mat rng random_sample m n g)) = m /\
  Forall (fun r => length r = n /\ Forall (fun u => 0 <= u /\ u < 1) r)
         (fst (rand_mat rng random_sample m n g)).
Proof.
  induction m as [|m IH]; intros g; simpl; [split; [reflexivity|constructor]|].
  assert (Hr := rand_vec_spec n g).
  destruct (rand_vec rng random_sample n g) as [r g1]. specialize (IH g1).
  destruct (rand_mat rng random_sample m n g1) as [rs g2]. simpl in *.
  destruct IH as [Hl Hf]. split; [now rewrite Hl|now constructor].
Qed.

Lemma scaled_entries us :
  Forall (fun u => 0 <= u /\ u < 1) us ->
  Forall int_0_100 (map (fun u => rint (u * 100)) us).
Proof.
  intros H. apply List.Forall_map. eapply List.Forall_impl; [|exact H].
  intros u [H0 H1]. apply rint_range.
  - apply Qmult_le_0_compat; [exact H0|discriminate].
  - apply (Qlt_le_trans _ (1 * 100)); [|discriminate].
    apply Qmult_lt_r; [reflexivity|exact H1].
Qed.

(** One run of the generator, in terms of its draws. *)
Lemma generate_random_LPP_run g h :
  generate_random_LPP rng randint random_sample g h =
    let (m, g1) := randint 1 12 g in
    let (n, g2) := randint 1 12 g1 in
    let (uA, g3) := rand_mat rng random_sample m n g2 in
    let (ub, g4) := rand_vec rng random_sample m g3 in
    let (uc, g5) := rand_vec rng random_sample n g4 in
    (Ok (length h, S (length h), S (S (length h)), g5),
     h ++ [Mat n (map (map (fun u => rint (u * 100))) uA);
           Vec (map (fun u => rint (u * 100)) ub);
           Vec (map (fun u => rint (u * 100)) uc)]).
Proof.
  unfold generate_random_LPP.
  destruct (randint 1 12 g) as [m g1]. destruct (randint 1 12 g1) as [n g2].
  destruct (rand_mat rng random_sample m n g2) as [uA g3].
  unfold bind at 1, alloc at 1.
  destruct (rand_vec rng random_sample m g3) as [ub g4].
  unfold bind at 1, alloc at 1.
  destruct (rand_vec rng random_sample n g4) as [uc g5].
  unfold bind, alloc, ret. rewrite ?length_app, <- ?app_assoc. simpl.
  repeat f_equal; lia.
Qed.

(** X8.  Whatever is drawn, [generate_random_LPP] returns three new
    arrays forming a well-dimensioned program: [A] is [m x n] with
    [1 <= m, n <= 12], [b] has [m] entries and the third array [c] has [n]
    entries, and every entry is an integer between 0 and 100. *)
Theorem generate_random_LPP_well_formed g h :
  exists m n rows bv cv g',
    generate_random_LPP rng randint random_sample g h
    = (Ok (length h, S (length h), S (S (length h)), g'),
       h ++ [Mat n rows; Vec bv; Vec cv]) /\
    (1 <= m <= 12)%nat /\ (1 <= n <= 12)%nat /\
    length rows = m /\ Forall (fun r => length r = n) rows /\
    length bv = m /\ length cv = n /\
    Forall (Forall int_0_100) rows /\ Forall int_0_100 bv /\
    Forall int_0_100 cv.
Proof.
  rewrite generate_random_LPP_run.
  assert (Hm := randint_range 1 12 g ltac:(lia)).
  destruct (randint 1 12 g) as [m g1].
  assert (Hn := randint_range 1 12 g1 ltac:(lia)).
  destruct (randint 1 12 g1) as [n g2].
  assert (HA := rand_mat_spec m n g2).
  destruct (rand_mat rng random_sample m n g2) as [uA g3].
  assert (HB := rand_vec_spec m g3).
  destruct (rand_vec rng random_sample m g3) as [ub g4].
  assert (HC := rand_vec_spec n g4).
  destruct (rand_vec rng random_sample n g4) as [uc g5].
  simpl in *. destruct HA as [HA1 HA2], HB as [HB1 HB2], HC as [HC1 HC2].
  eexists m, n, _, _, _, g5. split; [reflexivity|].
  rewrite !length_map.
  repeat split; try lia; try assumption.
  - apply List.Forall_map. eapply List.Forall_impl; [|exact HA2].
    intros r [Hr _]. now rewrite length_map.
  - apply List.Forall_map. eapply List.Forall_impl; [|exact HA2].
    intros r [_ Hr]. now apply scaled_entries.
  - now apply scaled_entries.
  - now apply scaled_entries.
Qed.

Lemma int_0_100_above q : int_0_100 q -> - 1e-10 <= q.
Proof.
  intros (z & -> & Hz). apply (Qle_trans _ 0); [discriminate|].
  change 0 with (inject_Z 0). rewrite <- Zle_Qle. lia.
Qed.

(** X9.  A program drawn by [generate_random_LPP] is always solved:
    [LP_exhaustive_search] on the three arrays returns a value, at most
    [0]; the empty reduction cannot occur on generated programs. *)
Theorem generated_program_is_solved g h :
  exists v h1,
    (p <- generate_random_LPP rng randint random_sample g ;;
     let '(A, b, c, _) := p in LP_exhaustive_search A b c) h = (Ok v, h1) /\
    v <= 0.
Proof.
  unfold bind at 1. rewrite generate_random_LPP_run.
  destruct (randint 1 12 g) as [m g1]. destruct (randint 1 12 g1) as [n g2].
  assert (HA := rand_mat_spec m n g2).
  destruct (rand_mat rng random_sample m n g2) as [uA g3].
  assert (HB := rand_vec_spec m g3).
  destruct (rand_vec rng random_sample m g3) as [ub g4].
  assert (HC := rand_vec_spec n g4).
  destruct (rand_vec rng random_sample n g4) as [uc g5].
  simpl in HA, HB, HC. destruct HA as [HA _], HB as [HB1 HB2], HC as [HC _].
  set (rows := map (map (fun u => rint (u * 100))) uA).
  set (bv := map (fun u => rint (u * 100)) ub).
  set (cv := map (fun u => rint (u * 100)) uc).
  set (h0 := h ++ [Mat n rows; Vec bv; Vec cv]).
  destruct (LP_exhaustive_search_spec h0 (length h) (S (length h))
              (S (S (length h))) n rows bv cv) as (t & ->).
  { apply lookup_fresh. }
  { unfold h0. rewrite (lookup_app_r h) by lia.
    now replace (S (length h) - length h)%nat with 1%nat by lia. }
  { unfold h0. rewrite (lookup_app_r h) by lia.
    now replace (S (S (length h)) - length h)%nat with 2%nat by lia. }
  destruct (optimal_value_nonneg_b n rows bv cv) as (v & -> & Hv).
  - unfold rows, bv. rewrite !length_map. lia.
  - unfold cv. now rewrite length_map.
  - eapply List.Forall_impl; [|exact (scaled_entries ub HB2)].
    apply int_0_100_above.
  - now exists v, (h0 ++ t).
Qed.
End GeneratorFacts.

Example rint_half_to_even :
  map rint [1 # 2; 3 # 2; 5 # 2; 7 # 4; 249 # 100] = [0; 2; 2; 2; 2].
Proof. reflexivity. Qed.

Example generate_from_counter :
  generate_random_LPP nat counter_randint counter_sample 0%nat []
  = (Ok (0, 1, 2, 7)%nat,
     [Mat 2 [[25; 38]]; Vec [50]; Vec [62; 75]]).
Proof. vm_compute. reflexivity. Qed.

Lemma counter_randint_range a b g :
  (a <= b)%nat -> (a <= fst (counter_randint a b g) <= b)%nat.
Proof.
  intros Hab. simpl.
  assert (H := Nat.mod_upper_bound g (b - a + 1)). lia.
Qed.

Lemma counter_sample_range g :
  0 <= fst (counter_sample g) /\ fst (counter_sample g) < 1.
Proof.
  simpl. assert (H := Nat.mod_upper_bound g 8).
  unfold Qle, Qlt. simpl. lia.
Qed.

Lemma generate_random_LPP_well_formed_witness :
  exists m n rows bv cv g',
    generate_random_LPP nat counter_randint counter_sample 0%nat []
    = (Ok (length (@nil ndarray), S (length (@nil ndarray)),
           S (S (length (@nil ndarray))), g'),
       [] ++ [Mat n rows; Vec bv; Vec cv]) /\
    (1 <= m <= 12)%nat /\ (1 <= n <= 12)%nat /\
    length rows = m /\ Forall (fun r => length r = n) rows /\
    length bv = m /\ length cv = n /\
    Forall (Forall int_0_100) rows /\ Forall int_0_100 bv /\
    Forall int_0_100 cv.
Proof.
  apply (generate_random_LPP_well_formed nat counter_randint counter_sample
           counter_randint_range counter_sample_range 0%nat []).
Defined.

Lemma generated_program_is_solved_witness :
  exists v h1,
    (p <- generate_random_LPP nat counter_randint counter_sample 0%nat ;;
     let '(A, b, c, _) := p in LP_exhaustive_search A b c) [] = (Ok v, h1) /\
    v <= 0.
Proof.
  apply (generated_program_is_solved nat counter_randint counter_sample
           counter_sample_range 0%nat []).
Defined.

(** ** What the [except] branch hides on a well-formed program *)

Lemma take_lookup {A} (l : list A) idx : forall r,
  take l idx = Ok r -> Forall2 (fun i a => l !! i = Some a) idx r.
Proof.
  induction idx as [|i idx IH]; simpl; intros r.
  - intros [= <-]. constructor.
  - destruct (l !! i) as [a|] eqn:E; [|discriminate].
    destruct (take l idx) as [r'|]; [|discriminate].
    intros [= <-]. constructor; [exact E|now apply IH].
Qed.

Lemma take_length {A} (l : list A) idx r :
  take l idx = Ok r -> length r = length idx.
Proof.
  intros H%take_lookup. symmetry. eapply Forall2_length, H.
Qed.

Lemma take_Forall {A} (P : A -> Prop) (l : list A) idx r :
  take l idx = Ok r -> Forall P l -> Forall P r.
Proof.
  intros H%take_lookup Hl. rewrite List.Forall_forall in Hl.
  induction H as [|i a idx r Hi _ IH]; constructor; [|exact IH].
  apply Hl, list_elem_of_In. eapply list_elem_of_lookup_2, Hi.
Qed.

Lemma firstn_rows n (l : list (list Q)) :
  Forall (fun r => length r = n) l -> map (firstn n) l = l.
Proof.
  induction 1 as [|r l Hr _ IH]; simpl; [reflexivity|].
  rewrite IH, firstn_all2 by lia. reflexivity.
Qed.

(** On a program with consistent dimensions every selection is a square
    system with a right-hand side of its size. *)
Lemma selection_square n rows bv combo :
  Forall (fun r => length r = n) rows -> length bv = length rows ->
  In combo (row_index_combinations (length rows) n) ->
  exists Ac bc,
    take (A_stacked_rows n rows) combo = Ok Ac /\
    take (b_stacked_items n bv) combo = Ok bc /\
    map (firstn n) Ac = Ac /\
    Forall (fun r => length r = length Ac) Ac /\
    length bc = length Ac /\ length Ac = n.
Proof.
  intros Hrect Hlen Hc.
  assert (Hbound := row_index_combinations_bound (length rows) n).
  rewrite List.Forall_forall in Hbound. specialize (Hbound combo Hc).
  destruct (take_Ok (A_stacked_rows n rows) combo) as [Ac HAc].
  { unfold A_stacked_rows, np_eye.
    rewrite length_app, length_map, length_seq. exact Hbound. }
  destruct (take_Ok (b_stacked_items n bv) combo) as [bc Hbc].
  { unfold b_stacked_items, np_zeros. rewrite length_app, repeat_length.
    eapply List.Forall_impl; [|exact Hbound]. simpl. intros; lia. }
  exists Ac, bc. split; [exact HAc|]. split; [exact Hbc|].
  assert (Hn : length combo = n)
    by (unfold row_index_combinations in Hc;
        now apply combinations_incl in Hc).
  assert (HlA : length Ac = n) by (rewrite (take_length _ _ _ HAc); exact Hn).
  assert (Hlb : length bc = n) by (rewrite (take_length _ _ _ Hbc); exact Hn).
  assert (Hsq : Forall (fun r => length r = n) Ac).
  { apply (take_Forall _ _ _ _ HAc). unfold A_stacked_rows.
    apply List.Forall_app. split; [exact Hrect|apply eye_rows]. }
  split; [now apply firstn_rows|].
  rewrite HlA. now repeat split.
Qed.

(** X10.  On a program with consistent dimensions (a rectangular [A] and
    [len(b) = m]) the guarded block raises for an enumerated combination
    only when [np.linalg.solve] does, and the exception is then
    [LinAlgError]: neither [A @ x] nor the comparison with [b + 1e-10] can
    fail, so the [except] branch hides nothing else; a combination whose
    system is solved is dropped by the feasibility test only. *)
Theorem block_raises_only_in_the_solve
    h A b n rows bv A_stacked b_stacked acc combo :
  loop_store A b n rows bv A_stacked b_stacked h ->
  Forall (fun r => length r = n) rows -> length bv = length rows ->
  In combo (row_index_combinations (length rows) n) ->
  exists Ac bc,
    take (A_stacked_rows n rows) combo = Ok Ac /\
    take (b_stacked_items n bv) combo = Ok bc /\
    (forall e h',
        solve_and_check A b n (length h) (S (length h)) acc
                        (h ++ [Mat n Ac; Vec bc]) = (Raise e, h') ->
        e = LinAlgError /\ linalg_solve Ac bc = Raise LinAlgError /\
        h' = h ++ [Mat n Ac; Vec bc]) /\
    (forall sol,
        linalg_solve Ac bc = Ok sol ->
        solve_and_check A b n (length h) (S (length h)) acc
                        (h ++ [Mat n Ac; Vec bc])
        = (Ok (if passes n rows bv (snap_to_zero sol)
               then acc ++ [S (S (length h))] else acc),
           h ++ [Mat n Ac; Vec bc; Vec (snap_to_zero sol)])).
Proof.
  intros (HA & Hb & _ & _) Hrect Hlen Hc.
  destruct (selection_square n rows bv combo Hrect Hlen Hc)
    as (Ac & bc & HAc & Hbc & Hfirst & Hsq & Hlb & HlA).
  exists Ac, bc. split; [exact HAc|]. split; [exact Hbc|].
  assert (Hrun := solve_and_check_run A b n rows bv
                    (h ++ [Mat n Ac; Vec bc]) (length h) (S (length h))
                    n Ac bc acc
                    (lookup_grow _ _ _ _ HA) (lookup_grow _ _ _ _ Hb)
                    (lookup_fresh _ _ _)).
  rewrite Hfirst in Hrun. rewrite Hrun.
  2:{ rewrite (lookup_app_r h) by lia.
      now replace (S (length h) - length h)%nat with 1%nat by lia. }
  assert (Hpass : forall sol, length sol = n ->
            exists cmp,
              matmul n rows (snap_to_zero sol)
              = Ok (map (fun r => dot r (snap_to_zero sol)) rows) /\
              np_le (map (fun r => dot r (snap_to_zero sol)) rows)
                    (map (fun bi => bi + 1e-10) bv) = Ok cmp).
  { intros sol Hsol.
    assert (Hls : length (snap_to_zero sol) = n)
      by (unfold snap_to_zero; now rewrite length_map).
    unfold matmul, np_le.
    rewrite Hls, Nat.eqb_refl, !length_map, <- Hlen, Nat.eqb_refl. eauto. }
  assert (Hsize : forall sol, linalg_solve Ac bc = Ok sol -> length sol = n)
    by (intros sol Hsol; now rewrite (linalg_solve_length _ _ _ Hsol)).
  split.
  - intros e h'.
    destruct (linalg_solve Ac bc) as [sol|e0] eqn:Hsol.
    + cbv zeta. intros E. exfalso.
      destruct (Hpass sol (Hsize sol eq_refl)) as (cmp & Hm & Hle).
      rewrite Hm, Hle in E.
      destruct (np_all (map _ (snap_to_zero sol))); discriminate.
    + intros [= <- <-].
      rewrite (linalg_solve_square Ac bc Hsq Hlb) in Hsol.
      destruct (gesv _ _); [discriminate|]. injection Hsol as <-.
      now repeat split.
  - intros sol Hsol.
    destruct (Hpass sol (Hsize sol Hsol)) as (cmp & Hm & Hle).
    rewrite Hsol. cbv zeta.
    unfold passes. rewrite Hm, Hle.
    rewrite <- app_assoc. simpl app.
    replace (length (h ++ [Mat n Ac; Vec bc])) with (S (S (length h)))
      by (rewrite length_app; simpl; lia).
    destruct (np_all (map _ (snap_to_zero sol))); simpl; [|reflexivity].
    now destruct (np_all cmp).
Qed.

Lemma block_raises_only_in_the_solve_witness :
  exists Ac bc,
    take (A_stacked_rows 1 [[0]]) [0%nat] = Ok Ac /\
    take (b_stacked_items 1 [-1]) [0%nat] = Ok bc /\
    (forall e h',
        solve_and_check 0%nat 1%nat 1 5%nat 6%nat []
          ((infeasible_lp ++ [Mat 1 [[0]; [1]]; Vec [-1; 0]])
             ++ [Mat 1 Ac; Vec bc]) = (Raise e, h') ->
        e = LinAlgError /\ linalg_solve Ac bc = Raise LinAlgError /\
        h' = (infeasible_lp ++ [Mat 1 [[0]; [1]]; Vec [-1; 0]])
               ++ [Mat 1 Ac; Vec bc]) /\
    (forall sol,
        linalg_solve Ac bc = Ok sol ->
        solve_and_check 0%nat 1%nat 1 5%nat 6%nat []
          ((infeasible_lp ++ [Mat 1 [[0]; [1]]; Vec [-1; 0]])
             ++ [Mat 1 Ac; Vec bc])
        = (Ok (if passes 1 [[0]] [-1] (snap_to_zero sol)
               then [] ++ [7%nat] else []),
           (infeasible_lp ++ [Mat 1 [[0]; [1]]; Vec [-1; 0]])
             ++ [Mat 1 Ac; Vec bc; Vec (snap_to_zero sol)])).
Proof.
  apply (block_raises_only_in_the_solve
           (infeasible_lp ++ [Mat 1 [[0]; [1]]; Vec [-1; 0]])
           0%nat 1%nat 1%nat [[0]] [-1] 3%nat 4%nat [] [0%nat]).
  - repeat split.
  - repeat constructor.
  - reflexivity.
  - now left.
Defined.


